(** * LuisaRender: the progressive integrator driver (src/base/integrator.cpp)

    A shallow embedding of the configuration nodes [Integrator] and
    [ProgressiveIntegrator], of their session instances, and of the host-side
    render driver ([render], [_render_one_camera]).

    Conventions.
    - [unsigned int] values are integers in [Z] with the wrap-around modulo
      2^32 written where the code computes; [uint16_t] likewise modulo 2^16.
    - [float] values (shutter time, shutter weight) are never computed with by
      the driver, it only passes them on: their type is a parameter [F].
    - Everything outside integrator.cpp (device, command buffer, printer,
      sampler, film, display, progress bar) is the runtime: an abstract world
      state, a transition for every command sent to it, and an answer plus a
      transition for every query.  The driver is written in a monad that
      threads the world and records the interaction in submission order. *)

From Stdlib Require Import ZArith List Bool Lia.
From stdpp Require Import gmap strings list.

Local Open Scope Z_scope.

(** ** Machine integers *)

Definition uint_modulus : Z := 2 ^ 32.
Definition uint16_modulus : Z := 2 ^ 16.

(** Result of an [unsigned int] operation whose mathematical value is [z]. *)
Definition to_uint (z : Z) : Z := z mod uint_modulus.

(** [static_cast<uint16_t>(z)] for an unsigned [z]. *)
Definition to_uint16 (z : Z) : Z := z mod uint16_modulus.

(** [std::clamp(v, lo, hi)]: [(v < lo) ? lo : (hi < v) ? hi : v]. *)
Definition clamp (v lo hi : Z) : Z :=
  if v <? lo then lo else if hi <? v then hi else v.

Record uint2 : Type := make_uint2 { x : Z; y : Z }.

(** ** Scene description nodes *)

Inductive SceneNodeTag : Type :=
| INTEGRATOR
| SAMPLER
| LIGHT_SAMPLER.

(** What the driver needs of a description node it refers to: its tag and the
    name of the implementation it selects. *)
Record NodeRef : Type := make_node_ref {
  node_tag : SceneNodeTag;
  impl_type : string
}.

Inductive Property : Type :=
| PNode (n : NodeRef)
| PUInt (v : Z)
| PBool (b : bool).

Module SceneNodeDesc.

(** The description of the integrator node: its named properties. *)
Record t : Type := make { properties : gmap string Property }.

(** [SceneNodeDesc::shared_default_sampler(impl)]. *)
Definition shared_default_sampler (impl : string) : NodeRef :=
  {| node_tag := SAMPLER; impl_type := impl |}.

(** [SceneNodeDesc::shared_default_light_sampler(impl)]. *)
Definition shared_default_light_sampler (impl : string) : NodeRef :=
  {| node_tag := LIGHT_SAMPLER; impl_type := impl |}.

(** Modelled from the spec: [property_node_or_default] is declared in
    sdl/scene_node_desc.h, which is not part of the sources at hand.  The
    spec says the default is applied when the option is absent; a given
    node is returned as it is. *)
Definition property_node_or_default (desc : t) (name : string) (default : NodeRef) : NodeRef :=
  match properties desc !! name with
  | Some (PNode n) => n
  | _ => default
  end.

(** Modelled from the spec: [property_uint_or_default], same header. *)
Definition property_uint_or_default (desc : t) (name : string) (default : Z) : Z :=
  match properties desc !! name with
  | Some (PUInt v) => v
  | _ => default
  end.

(** Modelled from the spec: [property_bool_or_default], same header; the
    call at line 136 leaves the default to the declaration, and the spec's
    option table gives it as false. *)
Definition property_bool_or_default (desc : t) (name : string) : bool :=
  match properties desc !! name with
  | Some (PBool b) => b
  | _ => false
  end.

End SceneNodeDesc.

(** ** Sampler and light-sampler nodes, pipeline, cameras *)

(** [Scene::load_sampler] and [Scene::load_light_sampler] turn a description
    into the node of the scene graph; the node remembers its description. *)
Inductive Sampler : Type := load_sampler (desc : NodeRef).
Inductive LightSampler : Type := load_light_sampler (desc : NodeRef).

(** Device-resident instances made by [Sampler::build] and
    [LightSampler::build]: the handle names the node it was built from. *)
Inductive SamplerInstance : Type := built_sampler (node : Sampler).
Inductive LightSamplerInstance : Type := built_light_sampler (node : LightSampler).

Section SceneData.

Context {F : Type}.

Record ShutterPoint : Type := make_shutter_point { time : F; weight : F }.

Record ShutterSample : Type := make_shutter_sample {
  point : ShutterPoint;
  spp : Z
}.

(** A camera instance with what the driver reads from it:
    [node()->spp()], [node()->file()], [film()->node()->resolution()] and
    [node()->shutter_samples()]. *)
Record Camera : Type := make_camera {
  camera_spp : Z;
  camera_file : string;
  camera_resolution : uint2;
  camera_shutter_samples : list ShutterSample
}.

Record Pipeline : Type := make_pipeline {
  cameras : list Camera;
  has_lighting : bool
}.

End SceneData.

Arguments ShutterPoint : clear implicits.
Arguments ShutterSample : clear implicits.
Arguments Camera : clear implicits.
Arguments Pipeline : clear implicits.

(** ** The runtime and the driver monad *)

Section Runtime.

Context {F World : Type}.

(** The lines printed with [LUISA_INFO]. *)
Inductive Info : Type :=
| RenderingTo (file : string) (resolution : uint2) (spp : Z)
| ShaderCompiled
| RenderingStarted
| RenderingFinished.

(** The argument of [ProgressBar::update]: the literal [0.] of line 94, or
    [sample_id / static_cast<double>(spp)] of line 111, kept as the pair. *)
Inductive Progress : Type :=
| progress_zero
| progress_ratio (sample_id spp : Z).

(** What the driver tells the runtime to do, with the arguments it passes. *)
Inductive Command : Type :=
| SamplerBuild (s : Sampler)
| LightSamplerBuild (s : LightSampler)
| FilmPrepare (camera : Camera F)
| DisplayReset (camera : Camera F)
| SamplerReset (resolution : uint2) (pixel_count spp : Z)
| PrinterReset
| Synchronize
| LogInfo (i : Info)
| Compile (camera : Camera F)
| ProgressUpdate (p : Progress)
| DeferredProgressUpdate (p : Progress)
| PipelineUpdate (time : F)
| Dispatch (camera : Camera F) (sample_id : Z) (time weight : F) (resolution : uint2)
| PrinterRetrieve
| ProgressDone
| FilmDownload (camera : Camera F) (pixel_count : Z)
| FilmRelease (camera : Camera F)
| SaveImage (path : string) (resolution : uint2).

(** What the driver asks the runtime; every answer is a [bool]. *)
Inductive Query : Type :=
| PrinterEmpty
| DisplayShouldClose
| DisplayUpdate (sample_id : Z)
| DisplayIdle.

Inductive Event : Type :=
| Did (c : Command)
| Asked (q : Query) (answer : bool).

Record Runtime : Type := make_runtime {
  rt_do : Command -> World -> World;
  rt_ask : Query -> World -> bool * World
}.

(** Outcome of running a piece of the driver from a world: its value, the
    world it leaves, and the events it caused, oldest first. *)
Record Run (A : Type) : Type := make_run {
  value : A;
  world : World;
  log : list Event
}.
Arguments make_run {A}.
Arguments value {A}.
Arguments world {A}.
Arguments log {A}.

Definition M (A : Type) : Type := World -> Run A.

Definition M_ret {A} (a : A) : M A :=
  fun w => make_run a w [].

Definition M_bind {A B} (k : A -> M B) (m : M A) : M B :=
  fun w =>
    let r := m w in
    let r' := k (value r) (world r) in
    make_run (value r') (world r') (log r ++ log r').

Variable rt : Runtime.

Definition perform (c : Command) : M unit :=
  fun w => make_run tt (rt_do rt c w) [Did c].

Definition ask (q : Query) : M bool :=
  fun w => make_run (rt_ask rt q w).1 (rt_ask rt q w).2 [Asked q (rt_ask rt q w).1].

(** Runs [m] and also hands back the events it caused. *)
Definition listen {A} (m : M A) : M (A * list Event) :=
  fun w => let r := m w in make_run (value r, log r) (world r) (log r).

End Runtime.

Arguments Info : clear implicits.
Arguments Command : clear implicits.
Arguments Event : clear implicits.
Arguments Runtime : clear implicits.
Arguments Run : clear implicits.
Arguments M : clear implicits.
Arguments make_run {F World A}.
Arguments value {F World A}.
Arguments world {F World A}.
Arguments log {F World A}.

#[global] Instance M_mret {F World} : MRet (M F World) := @M_ret F World.
#[global] Instance M_mbind {F World} : MBind (M F World) := @M_bind F World.

(** ** Configuration nodes *)

Module Integrator.

Record t : Type := make {
  sampler : Sampler;
  light_sampler : LightSampler
}.

(** [Integrator::Integrator(scene, desc)], lines 14-19. *)
Definition new (desc : SceneNodeDesc.t) : t :=
  {| sampler :=
       load_sampler (SceneNodeDesc.property_node_or_default desc
         "sampler" (SceneNodeDesc.shared_default_sampler "independent"));
     light_sampler :=
       load_light_sampler (SceneNodeDesc.property_node_or_default desc
         "light_sampler" (SceneNodeDesc.shared_default_light_sampler "uniform")) |}.

Section Instance.

Context {F World : Type} (rt : Runtime F World).

(** [Integrator::Instance]: a reference to the pipeline and to the node,
    the sampler instance, and the light-sampler instance, a
    [unique_ptr] that may hold [nullptr]. *)
Record Instance : Type := make_instance {
  _pipeline : Pipeline F;
  _integrator : t;
  _sampler : SamplerInstance;
  _light_sampler : option LightSamplerInstance
}.

(** [Integrator::Instance::Instance(pipeline, command_buffer, integrator)],
    lines 21-26.  [build] allocates on the device and hands back the
    instance it made. *)
Definition Instance_new (pipeline : Pipeline F) (integrator : t) : M F World Instance :=
  s ← (perform rt (SamplerBuild (sampler integrator));;
       mret (built_sampler (sampler integrator)));
  ls ← (if has_lighting pipeline
        then perform rt (LightSamplerBuild (light_sampler integrator));;
             mret (Some (built_light_sampler (light_sampler integrator)))
        else mret None);
  mret {| _pipeline := pipeline; _integrator := integrator;
          _sampler := s; _light_sampler := ls |}.

End Instance.

Arguments Instance : clear implicits.

End Integrator.

Module ProgressiveIntegrator.

Record t : Type := make {
  base : Integrator.t;
  display_interval : Z;
  display_enabled : bool
}.

(** [ProgressiveIntegrator::ProgressiveIntegrator(scene, desc)],
    lines 132-136. *)
Definition new (desc : SceneNodeDesc.t) : t :=
  {| base := Integrator.new desc;
     display_interval :=
       to_uint16 (clamp
         (SceneNodeDesc.property_uint_or_default desc "display_interval" 1)
         1 65535);
     display_enabled := SceneNodeDesc.property_bool_or_default desc "display" |}.

(** *** The sampling extension point *)

Record SourceLocation : Type := make_location {
  loc_file : string;
  loc_line : Z
}.

(** A call either returns a value or ends the process with a fatal error
    that carries a message and the place of the call. *)
Inductive Outcome (A : Type) : Type :=
| Returned (a : A)
| Fatal (message : string) (location : SourceLocation).
Arguments Returned {A}.
Arguments Fatal {A}.

(** Modelled from the spec: the macro [LUISA_ERROR_WITH_LOCATION] comes
    from the logging header of the compute runtime, which is not part of
    the sources at hand.  The spec says that it signals a fatal,
    non-recoverable error identifying the call site. *)
Definition LUISA_ERROR_WITH_LOCATION {A} (message file : string) (line : Z) : Outcome A :=
  Fatal message {| loc_file := file; loc_line := line |}.

Section Li.

(** The expression types of the kernel language: [Expr<uint>],
    [Expr<uint2>], [Expr<float>] and [Float3]. *)
Context {F UIntExpr UInt2Expr FloatExpr Float3 : Type}.

Definition LiSignature : Type :=
  Camera F -> UIntExpr -> UInt2Expr -> FloatExpr -> Outcome Float3.

(** [ProgressiveIntegrator::Instance::Li], lines 127-130. *)
Definition Li : LiSignature :=
  fun camera frame_index pixel_id time =>
    LUISA_ERROR_WITH_LOCATION "ProgressiveIntegrator::Li() is not implemented."
      "src/base/integrator.cpp" 129.

(** What one thread of the kernel does when its body runs to the end:
    the block size it was compiled for and the film accumulation
    [accumulate(pixel_id, shutter_weight * L)]. *)
Record KernelThread : Type := make_thread {
  block_size : Z * Z * Z;
  pixel : UInt2Expr;
  scale : FloatExpr;
  radiance : Float3
}.

(** The body of [render_kernel], lines 77-82, over the [Li] of the
    instance; [dispatch_id_xy] stands for [dispatch_id().xy()]. *)
Definition render_kernel (li : LiSignature) (camera : Camera F) (dispatch_id_xy : UInt2Expr)
    (frame_index : UIntExpr) (time shutter_weight : FloatExpr) : Outcome KernelThread :=
  let pixel_id := dispatch_id_xy in
  match li camera frame_index pixel_id time with
  | Returned L =>
      Returned {| block_size := (16, 16, 1); pixel := pixel_id;
                  scale := shutter_weight; radiance := L |}
  | Fatal message location => Fatal message location
  end.

End Li.

(** *** The session instance and the render driver *)

Inductive Display : Type := make_display (name : string).

(** The two counters of the dispatch loop, lines 95-96. *)
Record LoopVars : Type := make_vars {
  dispatch_count : Z;
  sample_id : Z
}.

(** The locals of one run of the body of the inner loop, lines 100-117:
    the index given to the dispatch, the answer of [printer().empty()],
    the answer of [should_close()] when it was asked,
    [dispatches_per_commit], the value of [++dispatch_count], and whether
    the branch of line 109 was taken. *)
Record Locals : Type := make_locals {
  frame : Z;
  printer_empty : bool;
  should_close : option bool;
  cadence : Z;
  counter : Z;
  committed : bool
}.

Section Driver.

Context {F World : Type} (rt : Runtime F World).

Record Instance : Type := make_instance {
  super : Integrator.Instance F;
  node : t;
  _display : option Display
}.

(** [ProgressiveIntegrator::Instance::Instance], lines 28-35. *)
Definition Instance_new (pipeline : Pipeline F) (n : t) : M F World Instance :=
  i ← Integrator.Instance_new rt pipeline (base n);
  mret {| super := i; node := n;
          _display := if display_enabled n
                      then Some (make_display "Display") else None |}.

Definition pipeline (inst : Instance) : Pipeline F :=
  Integrator._pipeline (super inst).

(** One run of the body of the inner loop with its events. *)
Record Iteration : Type := make_iteration {
  locals : Locals;
  events : list (Event F)
}.

(** Lines 105-108. *)
Definition dispatches_per_commit (inst : Instance) : M F World (option bool * Z) :=
  match _display inst with
  | Some _ =>
      closing ← ask rt DisplayShouldClose;
      mret (Some closing,
            if negb closing then display_interval (node inst) else 32)
  | None => mret (None, 32)
  end.

(** Lines 110-116, after the counter was reset. *)
Definition commit (inst : Instance) (spp sample_id : Z) : M F World unit :=
  let p := progress_ratio sample_id spp in
  match _display inst with
  | Some _ =>
      updated ← ask rt (DisplayUpdate sample_id);
      if updated : bool
      then perform rt (ProgressUpdate p)
      else perform rt (DeferredProgressUpdate p)
  | None => perform rt (DeferredProgressUpdate p)
  end.

(** Lines 100-117. *)
Definition body (inst : Instance) (camera : Camera F) (s : ShutterSample F)
    (v : LoopVars) : M F World (LoopVars * Locals) :=
  let id := sample_id v in
  let sample_id' := to_uint (id + 1) in
  perform rt (Dispatch camera id (time (point s)) (weight (point s))
                (camera_resolution camera));;
  empty ← ask rt PrinterEmpty;
  (if empty : bool then mret tt else perform rt PrinterRetrieve);;
  d ← dispatches_per_commit inst;
  let dispatches_per_commit := d.2 in
  let dispatch_count' := to_uint (dispatch_count v + 1) in
  let l fired := {| frame := id; printer_empty := empty; should_close := d.1;
                    cadence := dispatches_per_commit;
                    counter := dispatch_count'; committed := fired |} in
  if dispatch_count' mod dispatches_per_commit =? 0
  then commit inst (camera_spp camera) sample_id';;
       mret ({| dispatch_count := 0; sample_id := sample_id' |}, l true)
  else mret ({| dispatch_count := dispatch_count'; sample_id := sample_id' |}, l false).

Definition iteration (inst : Instance) (camera : Camera F) (s : ShutterSample F)
    (v : LoopVars) : M F World (LoopVars * Iteration) :=
  r ← listen (body inst camera s v);
  mret (r.1.1, {| locals := r.1.2; events := r.2 |}).

(** The inner loop, lines 99-118, with [n] runs of the body to go:
    [for (auto i = 0u; i < s.spp; i++)] runs it [s.spp] times. *)
Fixpoint sub_samples (inst : Instance) (camera : Camera F) (s : ShutterSample F)
    (n : nat) (v : LoopVars) : M F World (LoopVars * list Iteration) :=
  match n with
  | O => mret (v, [])
  | S n' =>
      r ← iteration inst camera s v;
      r' ← sub_samples inst camera s n' r.1;
      mret (r'.1, r.2 :: r'.2)
  end.

(** The outer loop, lines 97-119; the iterations come back grouped by
    shutter sample. *)
Fixpoint shutter_loop (inst : Instance) (camera : Camera F)
    (samples : list (ShutterSample F)) (v : LoopVars)
    : M F World (LoopVars * list (list Iteration)) :=
  match samples with
  | [] => mret (v, [])
  | s :: rest =>
      perform rt (PipelineUpdate (time (point s)));;
      r ← sub_samples inst camera s (Z.to_nat (spp s)) v;
      r' ← shutter_loop inst camera rest r.1;
      mret (r'.1, r.2 :: r'.2)
  end.

(** [ProgressiveIntegrator::Instance::_render_one_camera],
    lines 58-125.  The clocks are not modelled. *)
Definition _render_one_camera (inst : Instance) (camera : Camera F)
    : M F World (LoopVars * list (list Iteration)) :=
  let spp := camera_spp camera in
  let resolution := camera_resolution camera in
  let image_file := camera_file camera in
  let pixel_count := to_uint (x resolution * y resolution) in
  perform rt (SamplerReset resolution pixel_count spp);;
  perform rt PrinterReset;;
  perform rt Synchronize;;
  perform rt (LogInfo (RenderingTo image_file resolution spp));;
  perform rt (Compile camera);;
  perform rt (LogInfo ShaderCompiled);;
  perform rt Synchronize;;
  perform rt (LogInfo RenderingStarted);;
  perform rt (ProgressUpdate progress_zero);;
  r ← shutter_loop inst camera (camera_shutter_samples camera)
        {| dispatch_count := 0; sample_id := 0 |};
  perform rt Synchronize;;
  perform rt ProgressDone;;
  perform rt (LogInfo RenderingFinished);;
  mret r.

(** Line 48, [while (_display && _display->idle(command_buffer)) {}],
    with at most [fuel] calls of [idle]: the value says whether the loop
    was left ([true]) or the calls ran out ([false]). *)
Fixpoint drain (fuel : nat) (inst : Instance) : M F World bool :=
  match _display inst with
  | None => mret true
  | Some _ =>
      match fuel with
      | O => mret false
      | S fuel' =>
          again ← ask rt DisplayIdle;
          if again : bool then drain fuel' inst else mret true
      end
  end.

(** The body of the loop over the cameras, lines 42-54; each [drain] is
    given [fuel] calls, and the driver stops where one runs out. *)
Fixpoint render_cameras (fuel : nat) (inst : Instance) (cams : list (Camera F))
    : M F World bool :=
  match cams with
  | [] => mret true
  | camera :: rest =>
      let resolution := camera_resolution camera in
      let pixel_count := to_uint (x resolution * y resolution) in
      perform rt (FilmPrepare camera);;
      (match _display inst with
       | Some _ => perform rt (DisplayReset camera)
       | None => mret tt
       end);;
      _render_one_camera inst camera;;
      exited ← drain fuel inst;
      if exited : bool
      then perform rt (FilmDownload camera pixel_count);;
           perform rt Synchronize;;
           perform rt (FilmRelease camera);;
           perform rt (SaveImage (camera_file camera) resolution);;
           render_cameras fuel inst rest
      else mret false
  end.

(** [ProgressiveIntegrator::Instance::render], lines 39-56. *)
Definition render (fuel : nat) (inst : Instance) : M F World bool :=
  render_cameras fuel inst (cameras (pipeline inst)).

End Driver.

Arguments Instance : clear implicits.
Arguments Iteration : clear implicits.

End ProgressiveIntegrator.

(** ** Reading a run *)

Section Reading.

Context {F World : Type}.

(** The sample indices of the dispatches of a log, in submission order. *)
Definition dispatched (l : list (Event F)) : list Z :=
  omap (fun e => match e with
                 | Did (Dispatch _ id _ _ _) => Some id
                 | _ => None
                 end) l.

Definition is_dispatch (e : Event F) : bool :=
  match e with Did (Dispatch _ _ _ _ _) => true | _ => false end.

Definition is_sampler_reset (e : Event F) : bool :=
  match e with Did (SamplerReset _ _ _) => true | _ => false end.

(** Events of the printer: the emptiness check and the retrieval. *)
Definition is_printer_event (e : Event F) : bool :=
  match e with
  | Asked PrinterEmpty _ | Did PrinterRetrieve => true
  | _ => false
  end.

(** The progress report of a commit, at once or deferred. *)
Definition is_progress_report (e : Event F) : bool :=
  match e with
  | Did (ProgressUpdate (progress_ratio _ _))
  | Did (DeferredProgressUpdate (progress_ratio _ _)) => true
  | _ => false
  end.

(** All runs of the loop body of a camera, in order. *)
Definition iterations (r : Run F World (ProgressiveIntegrator.LoopVars *
                                        list (list (ProgressiveIntegrator.Iteration F))))
    : list (ProgressiveIntegrator.Iteration F) :=
  concat (value r).2.

(** The events of the outer loop rebuilt from its iterations: for each
    shutter sample the pipeline update, then the events of its runs. *)
Definition loop_events (samples : list (ShutterSample F))
    (groups : list (list (ProgressiveIntegrator.Iteration F))) : list (Event F) :=
  concat (zip_with
    (fun s g => Did (PipelineUpdate (time (point s)))
                :: concat (map ProgressiveIntegrator.events g))
    samples groups).

(** The dispatch counter after a sequence of iterations that started with
    the counter at [c]. *)
Fixpoint counter_after (c : Z) (l : list (ProgressiveIntegrator.Iteration F)) : Z :=
  match l with
  | [] => c
  | it :: l' =>
      counter_after
        (if ProgressiveIntegrator.committed (ProgressiveIntegrator.locals it)
         then 0
         else ProgressiveIntegrator.counter (ProgressiveIntegrator.locals it)) l'
  end.

(** The sub-sample counts of a shutter-sample sequence, summed. *)
Definition total_sub_samples (samples : list (ShutterSample F)) : Z :=
  fold_right Z.add 0 (map spp samples).

(** The sample indices the iterations gave to their dispatches. *)
Definition frames (l : list (ProgressiveIntegrator.Iteration F)) : list Z :=
  map (fun it => ProgressiveIntegrator.frame (ProgressiveIntegrator.locals it)) l.

(** Neither a dispatch, nor an event of the printer, nor a sampler reset. *)
Definition aside (e : Event F) : Prop :=
  is_dispatch e = false /\ is_printer_event e = false /\ is_sampler_reset e = false.

(** The events of one run of the loop body for [camera]: the dispatch with
    the recorded index, then the emptiness check with the recorded answer,
    then the retrieval exactly when the answer was no, then the rest. *)
Definition dispatch_then_printer (camera : Camera F)
    (it : ProgressiveIntegrator.Iteration F) (tail : list (Event F)) : Prop :=
  let l := ProgressiveIntegrator.locals it in
  exists t wt,
    ProgressiveIntegrator.events it =
      Did (Dispatch camera (ProgressiveIntegrator.frame l) t wt
             (camera_resolution camera))
      :: Asked PrinterEmpty (ProgressiveIntegrator.printer_empty l)
      :: (if ProgressiveIntegrator.printer_empty l
          then tail else Did PrinterRetrieve :: tail).

(** An event that may follow the sampler reset of [camera]: no second
    reset, and a dispatch only of the program and resolution of [camera]. *)
Definition within (camera : Camera F) (e : Event F) : Prop :=
  is_sampler_reset e = false /\
  (is_dispatch e = true ->
   exists id t wt, e = Did (Dispatch camera id t wt (camera_resolution camera))).

(** The events of one camera: no dispatch, then the sampler reset with the
    resolution, the pixel count and the spp of [camera], then the rest. *)
Definition reset_first (camera : Camera F) (segment : list (Event F)) : Prop :=
  exists before rest,
    segment = before ++
      Did (SamplerReset (camera_resolution camera)
             (to_uint (x (camera_resolution camera) * y (camera_resolution camera)))
             (camera_spp camera)) :: rest
    /\ Forall (fun e => is_dispatch e = false) before
    /\ Forall (within camera) rest.

(** The counter along a sequence of iterations that starts with the counter
    at [c]: every run increments it, commits exactly when the incremented
    value is a multiple of its cadence, and leaves 0 after a commit and the
    incremented value otherwise. *)
Fixpoint commit_chain (c : Z) (l : list (ProgressiveIntegrator.Iteration F)) : Prop :=
  match l with
  | [] => True
  | it :: l' =>
      let n := ProgressiveIntegrator.locals it in
      ProgressiveIntegrator.counter n = c + 1
      /\ (ProgressiveIntegrator.committed n = true <->
          (c + 1) mod ProgressiveIntegrator.cadence n = 0)
      /\ commit_chain (if ProgressiveIntegrator.committed n then 0 else c + 1) l'
  end.

(** No iteration of [l] committed. *)
Definition uncommitted (l : list (ProgressiveIntegrator.Iteration F)) : Prop :=
  Forall (fun it => ProgressiveIntegrator.committed (ProgressiveIntegrator.locals it) = false) l.

(** The same instance with another light-sampler slot. *)
Definition with_light_sampler (inst : ProgressiveIntegrator.Instance F)
    (ls : option LightSamplerInstance) : ProgressiveIntegrator.Instance F :=
  {| ProgressiveIntegrator.super :=
       {| Integrator._pipeline := Integrator._pipeline (ProgressiveIntegrator.super inst);
          Integrator._integrator := Integrator._integrator (ProgressiveIntegrator.super inst);
          Integrator._sampler := Integrator._sampler (ProgressiveIntegrator.super inst);
          Integrator._light_sampler := ls |};
     ProgressiveIntegrator.node := ProgressiveIntegrator.node inst;
     ProgressiveIntegrator._display := ProgressiveIntegrator._display inst |}.

(** [should_close] answers yes in world [w]. *)
Definition close_requested (rt : Runtime F World) (w : World) : Prop :=
  (rt_ask rt DisplayShouldClose w).1 = true.

(** The cadence the code is to use, from the display slot and the answer
    of [should_close] when it was asked. *)
Definition cadence_for (inst : ProgressiveIntegrator.Instance F)
    (answer : option bool) : Z :=
  match ProgressiveIntegrator._display inst, answer with
  | Some _, Some false =>
      ProgressiveIntegrator.display_interval (ProgressiveIntegrator.node inst)
  | _, _ => 32
  end.

(** The close request of the display stays up: once [should_close]
    answers yes, it answers yes after whatever the driver does next. *)
Definition close_request_stays (rt : Runtime F World) : Prop :=
  forall w, (rt_ask rt DisplayShouldClose w).1 = true ->
    (forall c, (rt_ask rt DisplayShouldClose (rt_do rt c w)).1 = true) /\
    (forall q, (rt_ask rt DisplayShouldClose (rt_ask rt q w).2).1 = true).

(** The world after [k] calls of [Display::idle] in a row, and the
    answer of the next call. *)
Definition idle_world (rt : Runtime F World) (k : nat) (w : World) : World :=
  Nat.iter k (fun w => (rt_ask rt DisplayIdle w).2) w.

Definition idle_answer (rt : Runtime F World) (k : nat) (w : World) : bool :=
  (rt_ask rt DisplayIdle (idle_world rt k w)).1.

(** The drain loop as the specification words it: "while a Display exists
    and reports itself not idle, keep draining it". *)
Fixpoint drain_while_not_idle (rt : Runtime F World) (fuel : nat)
    (inst : ProgressiveIntegrator.Instance F) : M F World bool :=
  match ProgressiveIntegrator._display inst with
  | None => mret true
  | Some _ =>
      match fuel with
      | O => mret false
      | S fuel' =>
          idle ← ask rt DisplayIdle;
          if negb idle then drain_while_not_idle rt fuel' inst else mret true
      end
  end.

(** The drain loop of the code and the one worded by the specification
    do the same from world [w]. *)
Definition drains_while_not_idle (rt : Runtime F World) (fuel : nat)
    (inst : ProgressiveIntegrator.Instance F) (w : World) : Prop :=
  ProgressiveIntegrator.drain rt fuel inst w = drain_while_not_idle rt fuel inst w.

End Reading.

(** ** The pieces of the driver

    The body of the dispatch loop and the single-camera function, cut at
    the places the properties refer to. *)

Section Pieces.

Import ProgressiveIntegrator.

Context {F World : Type} (rt : Runtime F World).

(** Lines 102-104: the printer check after a dispatch. *)
Definition printer_check : M F World bool :=
  empty ← ask rt PrinterEmpty;
  (if empty : bool then mret tt else perform rt PrinterRetrieve);;
  mret empty.

(** Lines 109-117 once the test of line 109 is known. *)
Definition commit_if (fired : bool) (inst : Instance F) (spp id : Z) : M F World unit :=
  if fired then commit rt inst spp id else mret tt.

(** The commands of lines 66-94, before the loop. *)
Definition prologue (camera : Camera F) : list (Command F) :=
  let resolution := camera_resolution camera in
  [ SamplerReset resolution (to_uint (x resolution * y resolution)) (camera_spp camera);
    PrinterReset;
    Synchronize;
    LogInfo (RenderingTo (camera_file camera) resolution (camera_spp camera));
    Compile camera;
    LogInfo ShaderCompiled;
    Synchronize;
    LogInfo RenderingStarted;
    ProgressUpdate progress_zero ].

(** The commands of lines 120-124, after the loop. *)
Definition epilogue : list (Command F) :=
  [ Synchronize; ProgressDone; LogInfo RenderingFinished ].

(** The commands of lines 49-54, after the drain loop of a camera. *)
Definition readout (camera : Camera F) : list (Command F) :=
  let resolution := camera_resolution camera in
  [ FilmDownload camera (to_uint (x resolution * y resolution));
    Synchronize;
    FilmRelease camera;
    SaveImage (camera_file camera) resolution ].

(** The commands of lines 45-46, before the single-camera function. *)
Definition preparation (inst : Instance F) (camera : Camera F) : list (Command F) :=
  FilmPrepare camera ::
  match _display inst with
  | Some _ => [DisplayReset camera]
  | None => []
  end.

(** The world after a list of commands. *)
Definition after (cs : list (Command F)) (w : World) : World :=
  fold_left (fun w c => rt_do rt c w) cs w.

(** A run with more events in front of its own. *)
Definition prefixed {A} (l : list (Event F)) (r : Run F World A) : Run F World A :=
  make_run (value r) (world r) (l ++ log r).

(** Computations that leave a requested close requested. *)
Definition keeps {A} (m : M F World A) : Prop :=
  forall w, (rt_ask rt DisplayShouldClose w).1 = true ->
            (rt_ask rt DisplayShouldClose (world (m w))).1 = true.

(** The runs of the loop body that lead from one state of the loop to
    another; the pipeline update of line 98 moves the world between them. *)
Inductive runs (inst : Instance F) (camera : Camera F)
    : LoopVars -> World -> list (Iteration F) -> LoopVars -> World -> Prop :=
| runs_none v w : runs inst camera v w [] v w
| runs_update t v w l v' w' :
    runs inst camera v (rt_do rt (PipelineUpdate t) w) l v' w' ->
    runs inst camera v w l v' w'
| runs_body s v w l v' w' :
    runs inst camera (value (iteration rt inst camera s v w)).1
         (world (iteration rt inst camera s v w)) l v' w' ->
    runs inst camera v w ((value (iteration rt inst camera s v w)).2 :: l) v' w'.

End Pieces.

(** ** More readings of a run *)

Section Projections.

Import ProgressiveIntegrator.

Context {F World : Type}.

(** What the loop sends for the pipeline and the kernel: a pipeline update
    to a time, or a dispatch with a time and a shutter weight. *)
Inductive Step : Type :=
| Updated (t : F)
| Dispatched (t wt : F).

Definition schedule (l : list (Event F)) : list Step :=
  omap (fun e => match e with
                 | Did (PipelineUpdate t) => Some (Updated t)
                 | Did (Dispatch _ _ t wt _) => Some (Dispatched t wt)
                 | _ => None
                 end) l.

(** The schedule a shutter-sample sequence asks for: per sample the update
    to its time, then one dispatch per sub-sample with its time and weight. *)
Definition planned (samples : list (ShutterSample F)) : list Step :=
  flat_map (fun s => Updated (time (point s))
                     :: replicate (Z.to_nat (spp s))
                          (Dispatched (time (point s)) (weight (point s))))
           samples.

(** The number of runs of the loop body for a shutter-sample sequence. *)
Definition sub_sample_count (samples : list (ShutterSample F)) : nat :=
  sum_list (map (fun s => Z.to_nat (spp s)) samples).

(** What [render] does for the cameras in turn: a dispatch of the kernel
    of a camera, the download of its film into a buffer of a length, the
    saving of an image under a path with a resolution. *)
Inductive Turn : Type :=
| Dispatching (camera : Camera F)
| Downloading (camera : Camera F) (pixel_count : Z)
| Saving (path : string) (resolution : uint2).

Definition turns (l : list (Event F)) : list Turn :=
  omap (fun e => match e with
                 | Did (Dispatch camera _ _ _ _) => Some (Dispatching camera)
                 | Did (FilmDownload camera n) => Some (Downloading camera n)
                 | Did (SaveImage path resolution) => Some (Saving path resolution)
                 | _ => None
                 end) l.

(** The dispatches of a camera: one per sub-sample of its shutter samples. *)
Definition rendering (camera : Camera F) : list Turn :=
  replicate (sub_sample_count (camera_shutter_samples camera)) (Dispatching camera).

(** The download and the saving of a camera. *)
Definition output (camera : Camera F) : list Turn :=
  [ Downloading camera
      (to_uint (x (camera_resolution camera) * y (camera_resolution camera)));
    Saving (camera_file camera) (camera_resolution camera) ].

Definition is_display_event (e : Event F) : bool :=
  match e with
  | Did (DisplayReset _)
  | Asked DisplayShouldClose _
  | Asked (DisplayUpdate _) _
  | Asked DisplayIdle _ => true
  | _ => false
  end.

(** The events of a log that go to the display. *)
Definition display_events (l : list (Event F)) : list (Event F) :=
  omap (fun e => if is_display_event e then Some e else None) l.

(** The progress ratios reported at once, without deferring. *)
Definition immediate_reports (l : list (Event F)) : list (Z * Z) :=
  omap (fun e => match e with
                 | Did (ProgressUpdate (progress_ratio id spp)) => Some (id, spp)
                 | _ => None
                 end) l.

(** The progress ratios reported by the commits, at once or deferred. *)
Definition reports (l : list (Event F)) : list (Z * Z) :=
  omap (fun e => match e with
                 | Did (ProgressUpdate (progress_ratio id spp))
                 | Did (DeferredProgressUpdate (progress_ratio id spp)) => Some (id, spp)
                 | _ => None
                 end) l.

(** The runs of the loop body that committed. *)
Definition commits (l : list (Iteration F)) : list (Iteration F) :=
  List.filter (fun it => committed (locals it)) l.

(** The question to [should_close] in a run of the loop body, when asked. *)
Definition close_part (n : Locals) : list (Event F) :=
  match should_close n with
  | Some b => [Asked DisplayShouldClose b]
  | None => []
  end.

(** The events of the commit of a run of the loop body, lines 110-116,
    where [taken] is the answer of [Display::update] when there is a
    display. *)
Definition commit_part (inst : Instance F) (camera : Camera F) (n : Locals)
    (taken : bool) : list (Event F) :=
  if committed n
  then
    let id := to_uint (frame n + 1) in
    let p := progress_ratio id (camera_spp camera) in
    match _display inst with
    | Some _ =>
        [ Asked (DisplayUpdate id) taken;
          Did (if taken then ProgressUpdate p else DeferredProgressUpdate p) ]
    | None => [ Did (DeferredProgressUpdate p) ]
    end
  else [].

(** All the events of a run of the loop body for shutter sample [s]. *)
Definition body_events (inst : Instance F) (camera : Camera F)
    (s : ShutterSample F) (n : Locals) (taken : bool) : list (Event F) :=
  Did (Dispatch camera (frame n) (time (point s)) (weight (point s))
         (camera_resolution camera))
  :: Asked PrinterEmpty (printer_empty n)
  :: (if printer_empty n then [] else [Did PrinterRetrieve])
  ++ close_part n ++ commit_part inst camera n taken.

(** The iteration is a run of the loop body for [s]: its events are those
    of its locals, and the answer of [should_close] is there exactly when
    there is a display. *)
Definition run_of (inst : Instance F) (camera : Camera F)
    (s : ShutterSample F) (it : Iteration F) : Prop :=
  (exists taken, events it = body_events inst camera s (locals it) taken)
  /\ (should_close (locals it) = None <-> _display inst = None).

(** The first call of [idle] that answers no, among the next [n]. *)
Definition stops_idling (rt : Runtime F World) (n : nat) : Prop :=
  forall w, exists k, (k < n)%nat /\ idle_answer rt k w = false.

End Projections.

Arguments Step : clear implicits.
Arguments Turn : clear implicits.

(** ** The question to the display *)

Section Question.

Import ProgressiveIntegrator.

Context {F World : Type} (rt : Runtime F World).

(** The world in which the run of the loop body for [s] that starts from
    the counters [v] and the world [w] evaluates line 106: the dispatch of
    line 100 and the printer check of lines 102-104 lie behind. *)
Definition question_world (camera : Camera F) (s : ShutterSample F)
    (v : LoopVars) (w : World) : World :=
  world (printer_check rt
           (rt_do rt (Dispatch camera (sample_id v) (time (point s))
                        (weight (point s)) (camera_resolution camera)) w)).

(** The cadence of line 105-108 from the display slot and the answer the
    runtime gives to [should_close] in world [w]. *)
Definition cadence_in (inst : Instance F) (w : World) : Z :=
  match _display inst with
  | Some _ =>
      if (rt_ask rt DisplayShouldClose w).1
      then 32
      else display_interval (node inst)
  | None => 32
  end.

(** The second half of the claim on the cadence, as it is worded: once a
    run of the loop body got a yes from [should_close], the cadence is 32 in
    all the runs after it in the loop of that camera. *)
Definition cadence_latches (inst : Instance F) (camera : Camera F) (w : World) : Prop :=
  forall l1 it l2,
    iterations (_render_one_camera rt inst camera w) = l1 ++ it :: l2 ->
    Asked DisplayShouldClose true ∈ events it ->
    Forall (fun it' => cadence (locals it') = 32) l2.

End Question.

(** ** A scripted runtime

    The world is a clock that ticks at every command and every query; the
    four kinds of query are answered from the time they are asked at. *)

Record Script : Type := make_script {
  script_printer_empty : nat -> bool;
  script_should_close : nat -> bool;
  script_update : nat -> bool;
  script_idle : nat -> bool
}.

Definition scripted (s : Script) : Runtime Z nat :=
  {| rt_do := fun _ w => S w;
     rt_ask := fun q w =>
       (match q with
        | PrinterEmpty => script_printer_empty s w
        | DisplayShouldClose => script_should_close s w
        | DisplayUpdate _ => script_update s w
        | DisplayIdle => script_idle s w
        end, S w) |}.

Definition description (l : list (string * Property)) : SceneNodeDesc.t :=
  SceneNodeDesc.make (list_to_map l).

(** The instance a description gives on a pipeline, built from world 0. *)
Definition session (s : Script) (l : list (string * Property)) (p : Pipeline Z)
    : ProgressiveIntegrator.Instance Z :=
  value (ProgressiveIntegrator.Instance_new (scripted s) p
           (ProgressiveIntegrator.new (description l)) 0%nat).

(** The scenario of the specification: resolution 4x4, 4 spp, one shutter
    sample with time 0, weight 1 and 4 sub-samples. *)
Definition camera_4x4 : Camera Z :=
  {| camera_spp := 4; camera_file := "out.exr";
     camera_resolution := make_uint2 4 4;
     camera_shutter_samples :=
       [ {| point := {| time := 0; weight := 1 |}; spp := 4 |} ] |}.

(** A camera with one shutter sample of [n] sub-samples. *)
Definition camera_of (n : Z) : Camera Z :=
  {| camera_spp := n; camera_file := "out.exr";
     camera_resolution := make_uint2 4 4;
     camera_shutter_samples :=
       [ {| point := {| time := 0; weight := 1 |}; spp := n |} ] |}.

Definition quiet : Script :=
  {| script_printer_empty := fun _ => true;
     script_should_close := fun _ => false;
     script_update := fun _ => true;
     script_idle := fun _ => false |}.

(** A display that asks to be closed from time [t] on; the printer stays
    empty, every display update takes the data, [idle] answers no. *)
Definition closes_at (t : nat) : Script :=
  {| script_printer_empty := fun _ => true;
     script_should_close := fun now => (t <=? now)%nat;
     script_update := fun _ => true;
     script_idle := fun _ => false |}.

(** A session with a display and a display interval of 40 on a camera of 110
    samples, whose display asks to be closed at time 233: in the 74th run
    of the loop body, 34 dispatches after the commit of the 40th. *)
Definition late_close : Script := closes_at 233.

Definition late_pipeline : Pipeline Z :=
  {| cameras := [camera_of 110]; has_lighting := false |}.

Definition late_session : ProgressiveIntegrator.Instance Z :=
  session late_close [("display", PBool true); ("display_interval", PUInt 40)]
    late_pipeline.

Definition late_run :=
  ProgressiveIntegrator._render_one_camera (scripted late_close) late_session
    (camera_of 110) 0%nat.

(** The [k]-th run of the loop body in [late_run], counted from 0. *)
Definition late_iteration (k : nat) : ProgressiveIntegrator.Iteration Z :=
  nth k (iterations late_run)
    {| ProgressiveIntegrator.locals :=
         {| ProgressiveIntegrator.frame := 0;
            ProgressiveIntegrator.printer_empty := true;
            ProgressiveIntegrator.should_close := None;
            ProgressiveIntegrator.cadence := 0;
            ProgressiveIntegrator.counter := 0;
            ProgressiveIntegrator.committed := false |};
       ProgressiveIntegrator.events := [] |}.

(** A display whose [idle] answers yes at times 0 and 1 and no afterwards. *)
Definition idle_twice : Script :=
  {| script_printer_empty := fun _ => true;
     script_should_close := fun _ => false;
     script_update := fun _ => true;
     script_idle := fun now => (now <? 2)%nat |}.

Definition scene_4x4 : Pipeline Z :=
  {| cameras := [camera_4x4]; has_lighting := true |}.

(** A session with a display on the 4x4 scene. *)
Definition display_session (s : Script) : ProgressiveIntegrator.Instance Z :=
  session s [("display", PBool true)] scene_4x4.

(** A display whose [idle] answers yes for ever. *)
Definition always_idle : Script :=
  {| script_printer_empty := fun _ => true;
     script_should_close := fun _ => false;
     script_update := fun _ => true;
     script_idle := fun _ => true |}.

(** A session with a display that is never closed and a display interval
    of 2, on the 4x4 scene. *)
Definition paced_run :=
  ProgressiveIntegrator._render_one_camera (scripted quiet)
    (session quiet [("display", PBool true); ("display_interval", PUInt 2)] scene_4x4)
    camera_4x4 0%nat.

(** The [k]-th run of the loop body in [paced_run], counted from 0. *)
Definition paced_iteration (k : nat) : ProgressiveIntegrator.Iteration Z :=
  nth k (iterations paced_run) (late_iteration 0).

(** A display that asks to be closed until time 20 and then no more:
    the first three runs of the loop body get a yes, the later ones a no. *)
Definition reopens : Script :=
  {| script_printer_empty := fun _ => true;
     script_should_close := fun now => (now <? 20)%nat;
     script_update := fun _ => true;
     script_idle := fun _ => false |}.

(** A session with that display and a display interval of 3, and its run
    on a camera of 8 samples. *)
Definition reopened_session : ProgressiveIntegrator.Instance Z :=
  session reopens [("display", PBool true); ("display_interval", PUInt 3)] scene_4x4.

Definition reopened_run :=
  ProgressiveIntegrator._render_one_camera (scripted reopens) reopened_session
    (camera_of 8) 0%nat.

(** The session of [paced_run]. *)
Definition paced_session : ProgressiveIntegrator.Instance Z :=
  session quiet [("display", PBool true); ("display_interval", PUInt 2)] scene_4x4.

(** A description that names a light sampler and nothing else. *)
Definition power_only : SceneNodeDesc.t :=
  description [("light_sampler",
                PNode {| node_tag := LIGHT_SAMPLER; impl_type := "power" |})].

(** * Properties *)

(** ** Configuration *)

Lemma clamp_spec (v lo hi : Z) :
  lo <= hi -> clamp v lo hi = Z.max lo (Z.min v hi).
Proof.
  intros Hle. unfold clamp.
  destruct (Z.ltb_spec v lo), (Z.ltb_spec hi v); lia.
Qed.

Lemma display_interval_range (desc : SceneNodeDesc.t) :
  1 <= ProgressiveIntegrator.display_interval (ProgressiveIntegrator.new desc) <= 65535.
Proof.
  cbn [ProgressiveIntegrator.new ProgressiveIntegrator.display_interval].
  rewrite clamp_spec by lia. unfold to_uint16, uint16_modulus.
  rewrite Z.mod_small; lia.
Qed.

Lemma display_interval_given (props : gmap string Property) (v : Z) :
  ProgressiveIntegrator.display_interval
    (ProgressiveIntegrator.new
       (SceneNodeDesc.make (<["display_interval" := PUInt v]> props)))
  = Z.max 1 (Z.min v 65535).
Proof.
  cbn [ProgressiveIntegrator.new ProgressiveIntegrator.display_interval].
  unfold SceneNodeDesc.property_uint_or_default.
  cbn [SceneNodeDesc.properties]. rewrite lookup_insert_eq.
  rewrite clamp_spec by lia. unfold to_uint16, uint16_modulus.
  rewrite Z.mod_small; lia.
Qed.

(** C4: the stored display interval is the configured value clamped to
    [1, 65535], whatever the value: 0 gives 1, 100000 gives 65535, a value
    within the range is kept, and an absent option gives the default 1.  The
    constructor is a total function to the node: it has no error result. *)
Theorem display_interval_clamped (props : gmap string Property) (v : Z) :
  let configured u :=
    ProgressiveIntegrator.display_interval
      (ProgressiveIntegrator.new
         (SceneNodeDesc.make (<["display_interval" := PUInt u]> props))) in
  configured v = Z.max 1 (Z.min v 65535)
  /\ 1 <= configured v <= 65535
  /\ configured 0 = 1
  /\ configured 100000 = 65535
  /\ (1 <= v <= 65535 -> configured v = v)
  /\ ProgressiveIntegrator.display_interval
       (ProgressiveIntegrator.new
          (SceneNodeDesc.make (delete "display_interval" props))) = 1.
Proof.
  cbv beta zeta. rewrite !display_interval_given.
  repeat split; try lia.
  cbn [ProgressiveIntegrator.new ProgressiveIntegrator.display_interval].
  unfold SceneNodeDesc.property_uint_or_default.
  cbn [SceneNodeDesc.properties]. rewrite lookup_delete_eq. reflexivity.
Qed.

Lemma display_interval_clamped_witness :
  ProgressiveIntegrator.display_interval
    (ProgressiveIntegrator.new
       (SceneNodeDesc.make (<["display_interval" := PUInt 5]> ∅))) = 5.
Proof.
  apply (display_interval_clamped ∅ 5). lia.
Defined.

(** C9: a node without the [sampler] option loads the "independent"
    sampler and a node without the [light_sampler] option loads the
    "uniform" light sampler; a given node is loaded in place of the
    default. *)
Theorem integrator_defaults (desc : SceneNodeDesc.t) :
  (SceneNodeDesc.properties desc !! "sampler" = None ->
     Integrator.sampler (Integrator.new desc)
     = load_sampler {| node_tag := SAMPLER; impl_type := "independent" |})
  /\ (SceneNodeDesc.properties desc !! "light_sampler" = None ->
     Integrator.light_sampler (Integrator.new desc)
     = load_light_sampler {| node_tag := LIGHT_SAMPLER; impl_type := "uniform" |})
  /\ (forall n, SceneNodeDesc.properties desc !! "sampler" = Some (PNode n) ->
     Integrator.sampler (Integrator.new desc) = load_sampler n)
  /\ (forall n, SceneNodeDesc.properties desc !! "light_sampler" = Some (PNode n) ->
     Integrator.light_sampler (Integrator.new desc) = load_light_sampler n).
Proof.
  unfold Integrator.new, SceneNodeDesc.property_node_or_default; cbn.
  repeat split; intros; match goal with H : _ !! _ = _ |- _ => rewrite H end;
    reflexivity.
Qed.

Lemma integrator_defaults_witness :
  Integrator.sampler (Integrator.new power_only)
  = load_sampler {| node_tag := SAMPLER; impl_type := "independent" |}
  /\ Integrator.light_sampler (Integrator.new power_only)
     = load_light_sampler {| node_tag := LIGHT_SAMPLER; impl_type := "power" |}.
Proof.
  destruct (integrator_defaults power_only) as (Hs & _ & _ & Hl).
  split.
  - apply Hs. vm_compute. reflexivity.
  - apply Hl. vm_compute. reflexivity.
Defined.

(** ** The sampling extension point *)

(** C5: the base [Li] ends in the fatal error of line 129 for every camera,
    frame index, pixel and time; it returns no colour, and a kernel thread
    over it fails with the same error before it accumulates anything. *)
Theorem Li_not_implemented {F UIntExpr UInt2Expr FloatExpr Float3 : Type}
    (camera : Camera F) (frame_index : UIntExpr) (pixel_id : UInt2Expr)
    (time shutter_weight : FloatExpr) :
  let failure {A} : ProgressiveIntegrator.Outcome A :=
    ProgressiveIntegrator.Fatal "ProgressiveIntegrator::Li() is not implemented."
      {| ProgressiveIntegrator.loc_file := "src/base/integrator.cpp";
         ProgressiveIntegrator.loc_line := 129 |} in
  @ProgressiveIntegrator.Li F UIntExpr UInt2Expr FloatExpr Float3
      camera frame_index pixel_id time = failure
  /\ (forall colour : Float3,
        @ProgressiveIntegrator.Li F UIntExpr UInt2Expr FloatExpr Float3
          camera frame_index pixel_id time
        <> ProgressiveIntegrator.Returned colour)
  /\ ProgressiveIntegrator.render_kernel
       (@ProgressiveIntegrator.Li F UIntExpr UInt2Expr FloatExpr Float3)
       camera pixel_id frame_index time shutter_weight = failure.
Proof.
  cbv zeta. split; [reflexivity | split; [ | reflexivity ] ].
  intros colour. unfold ProgressiveIntegrator.Li,
    ProgressiveIntegrator.LUISA_ERROR_WITH_LOCATION. discriminate.
Qed.

(** ** The driver monad *)

Section DriverFacts.

Import ProgressiveIntegrator.

Context {F World : Type} (rt : Runtime F World).

Lemma run_bind {A B} (m : M F World A) (k : A -> M F World B) (w : World) :
  (m ≫= k) w =
  make_run (value (k (value (m w)) (world (m w))))
           (world (k (value (m w)) (world (m w))))
           (log (m w) ++ log (k (value (m w)) (world (m w)))).
Proof. reflexivity. Qed.

Lemma run_ret {A} (a : A) (w : World) :
  (mret a : M F World A) w = make_run a w [].
Proof. reflexivity. Qed.

Lemma run_bind_prefixed {A B} (m : M F World A) (k : A -> M F World B) (w : World) :
  (m ≫= k) w = prefixed (log (m w)) (k (value (m w)) (world (m w))).
Proof. reflexivity. Qed.

Lemma run_perform_bind {B} c (k : unit -> M F World B) (w : World) :
  (perform rt c ≫= k) w = prefixed [Did c] (k tt (rt_do rt c w)).
Proof. reflexivity. Qed.

Lemma printer_check_run (w : World) :
  printer_check rt w =
  make_run (rt_ask rt PrinterEmpty w).1
    (if (rt_ask rt PrinterEmpty w).1
     then (rt_ask rt PrinterEmpty w).2
     else rt_do rt PrinterRetrieve (rt_ask rt PrinterEmpty w).2)
    (Asked PrinterEmpty (rt_ask rt PrinterEmpty w).1
     :: if (rt_ask rt PrinterEmpty w).1 then [] else [Did PrinterRetrieve]).
Proof.
  unfold printer_check. rewrite !run_bind. cbn [value world log ask].
  destruct (rt_ask rt PrinterEmpty w).1; reflexivity.
Qed.

Lemma dispatches_per_commit_run (inst : Instance F) (w : World) :
  dispatches_per_commit rt inst w =
  match _display inst with
  | Some _ =>
      make_run
        (Some (rt_ask rt DisplayShouldClose w).1,
         if negb (rt_ask rt DisplayShouldClose w).1
         then display_interval (node inst) else 32)
        (rt_ask rt DisplayShouldClose w).2
        [Asked DisplayShouldClose (rt_ask rt DisplayShouldClose w).1]
  | None => make_run (None, 32) w []
  end.
Proof.
  unfold dispatches_per_commit. destruct (_display inst); reflexivity.
Qed.

(** The body of the loop, piece by piece. *)
Lemma body_unfold inst camera s v w :
  body rt inst camera s v w =
  let issued := Dispatch camera (sample_id v) (time (point s))
                  (weight (point s)) (camera_resolution camera) in
  let r2 := printer_check rt (rt_do rt issued w) in
  let r3 := dispatches_per_commit rt inst (world r2) in
  let count := to_uint (dispatch_count v + 1) in
  let id := to_uint (sample_id v + 1) in
  let fired := count mod (value r3).2 =? 0 in
  let r4 := commit_if rt fired inst (camera_spp camera) id (world r3) in
  make_run
    ({| dispatch_count := if fired then 0 else count; sample_id := id |},
     {| frame := sample_id v; printer_empty := value r2;
        should_close := (value r3).1; cadence := (value r3).2;
        counter := count; committed := fired |})
    (world r4)
    (Did issued :: log r2 ++ log r3 ++ log r4).
Proof.
  cbv zeta. unfold body, printer_check, commit_if.
  rewrite !run_bind. cbn [value world log perform ask].
  destruct (_ =? 0) eqn:Hfired.
  - rewrite !run_bind, !run_ret. cbn [value world log].
    rewrite ?app_nil_r, <- ?app_assoc. reflexivity.
  - rewrite !run_ret. cbn [value world log].
    rewrite ?app_nil_r, <- ?app_assoc. reflexivity.
Qed.

Lemma iteration_unfold inst camera s v w :
  iteration rt inst camera s v w =
  let b := body rt inst camera s v w in
  make_run ((value b).1, {| locals := (value b).2; events := log b |})
           (world b) (log b).
Proof.
  unfold iteration, listen. rewrite run_bind, run_ret.
  cbn [value world log fst snd]. rewrite app_nil_r. reflexivity.
Qed.

Lemma commit_if_log fired inst spp id w :
  Forall aside (log (commit_if rt fired inst spp id w))
  /\ existsb is_progress_report (log (commit_if rt fired inst spp id w)) = fired
  /\ (forall b, Asked DisplayShouldClose b ∉ log (commit_if rt fired inst spp id w)).
Proof.
  unfold commit_if, commit.
  destruct fired; [ | split; [constructor | split; [reflexivity | ] ];
                      intros b Hin; inversion Hin ].
  destruct (_display inst) as [d|].
  - rewrite run_bind. cbn [value world log ask].
    destruct (rt_ask rt (DisplayUpdate id) w).1; cbn [log perform app];
      (split; [ repeat constructor | split; [reflexivity | ] ]);
      intros b Hin; repeat (apply elem_of_cons in Hin as [Hin|Hin]; [discriminate | ]);
      inversion Hin.
  - cbn [log perform].
    split; [ repeat constructor | split; [reflexivity | ] ].
    intros b Hin. apply elem_of_cons in Hin as [Hin|Hin]; [discriminate | inversion Hin].
Qed.

(** The events and the locals of one run of the loop body. *)
Lemma iteration_events inst camera s v w :
  let it := (value (iteration rt inst camera s v w)).2 in
  exists tail,
    dispatch_then_printer camera it tail
    /\ Forall aside tail
    /\ existsb is_progress_report tail = committed (locals it)
    /\ (forall b, should_close (locals it) = Some b <->
                  Asked DisplayShouldClose b ∈ tail).
Proof.
  cbv zeta. rewrite iteration_unfold. cbv zeta. rewrite body_unfold. cbv zeta.
  cbn [value world log fst snd locals events].
  set (w1 := rt_do rt _ w).
  rewrite printer_check_run. cbn [value world log].
  set (e := (rt_ask rt PrinterEmpty w1).1).
  set (w2 := if e then _ else _).
  set (r3 := dispatches_per_commit rt inst w2).
  set (fired := _ =? 0).
  destruct (commit_if_log fired inst (camera_spp camera)
              (to_uint (sample_id v + 1)) (world r3)) as (Has & Hrep & Hno).
  set (r4 := commit_if rt fired inst _ _ _) in *.
  exists (log r3 ++ log r4).
  split; [ | split; [ | split ] ].
  - exists (time (point s)), (weight (point s)).
    cbn [events locals frame printer_empty].
    destruct e; reflexivity.
  - apply Forall_app. split; [ | exact Has ].
    subst r3. rewrite dispatches_per_commit_run.
    destruct (_display inst); cbn [log]; repeat constructor.
  - cbn [locals committed]. rewrite existsb_app, Hrep.
    subst r3. rewrite dispatches_per_commit_run.
    destruct (_display inst); reflexivity.
  - intros b. cbn [locals should_close]. rewrite elem_of_app.
    subst r3. rewrite dispatches_per_commit_run.
    destruct (_display inst); cbn [value log fst].
    + split.
      * intros [= <-]. left. apply list_elem_of_singleton. reflexivity.
      * intros [Hin | Hin]; [ | destruct (Hno _ Hin) ].
        apply list_elem_of_singleton in Hin. injection Hin as <-. reflexivity.
    + split; [ discriminate | ].
      intros [Hin | Hin]; [ inversion Hin | destruct (Hno _ Hin) ].
Qed.

Lemma iteration_log inst camera s v w :
  log (iteration rt inst camera s v w)
  = events (value (iteration rt inst camera s v w)).2.
Proof. rewrite iteration_unfold. reflexivity. Qed.

(** *** The loops *)

Lemma sub_samples_step inst camera s n v w :
  sub_samples rt inst camera s (S n) v w =
  let r := iteration rt inst camera s v w in
  let r' := sub_samples rt inst camera s n (value r).1 (world r) in
  make_run ((value r').1, (value r).2 :: (value r').2) (world r')
           (log r ++ log r').
Proof.
  cbv zeta. cbn [sub_samples]. rewrite !run_bind, run_ret.
  cbn [value world log]. rewrite app_nil_r. reflexivity.
Qed.

Lemma shutter_loop_step inst camera s rest v w :
  shutter_loop rt inst camera (s :: rest) v w =
  let r := sub_samples rt inst camera s (Z.to_nat (spp s)) v
             (rt_do rt (PipelineUpdate (time (point s))) w) in
  let r' := shutter_loop rt inst camera rest (value r).1 (world r) in
  make_run ((value r').1, (value r).2 :: (value r').2) (world r')
           (Did (PipelineUpdate (time (point s))) :: log r ++ log r').
Proof.
  cbv zeta. cbn [shutter_loop]. rewrite !run_bind, run_ret.
  cbn [value world log perform]. rewrite app_nil_r. reflexivity.
Qed.

Lemma runs_app inst camera v w l v1 w1 l' v2 w2 :
  runs rt inst camera v w l v1 w1 ->
  runs rt inst camera v1 w1 l' v2 w2 ->
  runs rt inst camera v w (l ++ l') v2 w2.
Proof.
  induction 1 as [ | t v w l v1 w1 _ IH | s v w l v1 w1 _ IH ]; intros Hl'.
  - exact Hl'.
  - apply (runs_update rt inst camera t). apply IH, Hl'.
  - cbn [app]. apply runs_body. apply IH, Hl'.
Qed.

(** A property of every run of the body holds of all the runs of a loop. *)
Lemma runs_all inst camera (P : Iteration F -> Prop) v w l v' w' :
  (forall s v w, P (value (iteration rt inst camera s v w)).2) ->
  runs rt inst camera v w l v' w' -> Forall P l.
Proof.
  intros HP. induction 1; [ constructor | assumption | ].
  constructor; [ apply HP | assumption ].
Qed.

Lemma sub_samples_spec inst camera s n :
  forall v w,
    let r := sub_samples rt inst camera s n v w in
    runs rt inst camera v w (value r).2 (value r).1 (world r)
    /\ log r = concat (map events (value r).2)
    /\ length (value r).2 = n.
Proof.
  induction n as [ | n IH ]; intros v w.
  - cbn. split; [ constructor | split; reflexivity ].
  - cbv zeta. rewrite sub_samples_step. cbv zeta.
    cbn [value world log fst snd].
    destruct (IH (value (iteration rt inst camera s v w)).1
                (world (iteration rt inst camera s v w))) as (Hruns & Hlog & Hlen).
    split; [ | split ].
    + apply runs_body. exact Hruns.
    + cbn [map concat]. rewrite <- Hlog, iteration_log. reflexivity.
    + cbn [length]. rewrite Hlen. reflexivity.
Qed.

Lemma shutter_loop_spec inst camera samples :
  forall v w,
    let r := shutter_loop rt inst camera samples v w in
    runs rt inst camera v w (concat (value r).2) (value r).1 (world r)
    /\ log r = loop_events samples (value r).2
    /\ Forall2 (fun s g => length g = Z.to_nat (spp s)) samples (value r).2.
Proof.
  induction samples as [ | s rest IH ]; intros v w.
  - cbn. split; [ constructor | split; [ reflexivity | constructor ] ].
  - cbv zeta. rewrite shutter_loop_step. cbv zeta.
    cbn [value world log fst snd].
    set (w1 := rt_do rt _ w).
    destruct (sub_samples_spec inst camera s (Z.to_nat (spp s)) v w1)
      as (Hruns & Hlog & Hlen).
    set (r := sub_samples rt inst camera s _ v w1) in *.
    destruct (IH (value r).1 (world r)) as (Hruns' & Hlog' & Hlen').
    split; [ | split ].
    + cbn [concat]. apply (runs_update rt inst camera (time (point s))).
      fold w1. eapply runs_app; eassumption.
    + unfold loop_events in *. cbn [zip_with concat].
      rewrite Hlog, Hlog'. reflexivity.
    + constructor; assumption.
Qed.

Lemma after_app cs cs' w : after rt (cs ++ cs') w = after rt cs' (after rt cs w).
Proof. unfold after. apply fold_left_app. Qed.

(** The single-camera function: prologue, loop, epilogue. *)
Lemma render_one_camera_unfold inst camera w :
  _render_one_camera rt inst camera w =
  let r := shutter_loop rt inst camera (camera_shutter_samples camera)
             {| dispatch_count := 0; sample_id := 0 |}
             (after rt (prologue camera) w) in
  make_run (value r) (after rt epilogue (world r))
           (map Did (prologue camera) ++ log r ++ map Did epilogue).
Proof.
  cbv zeta. unfold _render_one_camera.
  rewrite !run_perform_bind, run_bind_prefixed, !run_perform_bind, run_ret.
  reflexivity.
Qed.

End DriverFacts.

(** ** The dispatches of a camera *)

Section Dispatches.

Import ProgressiveIntegrator.

Context {F World : Type} (rt : Runtime F World).

Lemma iteration_sample_id inst camera s v w :
  frame (locals (value (iteration rt inst camera s v w)).2) = sample_id v
  /\ sample_id (value (iteration rt inst camera s v w)).1 = to_uint (sample_id v + 1).
Proof.
  rewrite iteration_unfold. cbv zeta. rewrite body_unfold. cbv zeta.
  split; reflexivity.
Qed.

Lemma runs_frames inst camera v w l v' w' :
  runs rt inst camera v w l v' w' ->
  0 <= sample_id v ->
  sample_id v + Z.of_nat (length l) < uint_modulus ->
  frames l = seqZ (sample_id v) (Z.of_nat (length l))
  /\ sample_id v' = sample_id v + Z.of_nat (length l).
Proof.
  induction 1 as [ v w | t v w l v' w' _ IH | s v w l v' w' _ IH ];
    intros Hlo Hhi.
  - cbn. split; [ reflexivity | lia ].
  - apply IH; assumption.
  - destruct (iteration_sample_id inst camera s v w) as (Hframe & Hnext).
    cbn [length] in *.
    assert (Hid : to_uint (sample_id v + 1) = sample_id v + 1).
    { unfold to_uint. apply Z.mod_small. lia. }
    rewrite Hnext, Hid in IH.
    destruct IH as (IHf & IHs); [ lia | lia | ].
    split.
    + unfold frames in *. cbn [map]. rewrite Hframe, IHf.
      rewrite (seqZ_cons (sample_id v)) by lia.
      f_equal. f_equal; lia.
    + lia.
Qed.

Lemma dispatched_app (l l' : list (Event F)) :
  dispatched (l ++ l') = dispatched l ++ dispatched l'.
Proof. apply omap_app. Qed.

Lemma dispatched_aside (l : list (Event F)) :
  Forall aside l -> dispatched l = [].
Proof.
  induction 1 as [ | e l (Hd & _) _ IH ]; [ reflexivity | ].
  unfold dispatched in *. cbn [omap list_omap]. rewrite IH.
  destruct e as [ [] | ]; try reflexivity. discriminate.
Qed.

Lemma dispatched_commands (cs : list (Command F)) :
  Forall (fun c => is_dispatch (Did c) = false) cs ->
  dispatched (map Did cs) = [].
Proof.
  induction 1 as [ | c cs Hc _ IH ]; [ reflexivity | ].
  unfold dispatched in *. cbn [map omap list_omap]. rewrite IH.
  destruct c; try reflexivity. discriminate.
Qed.

Lemma dispatched_events camera (it : Iteration F) tail :
  dispatch_then_printer camera it tail -> Forall aside tail ->
  dispatched (events it) = [frame (locals it)].
Proof.
  intros (t & wt & Hev) Has. rewrite Hev.
  pose proof (dispatched_aside tail Has) as Htail.
  destruct (printer_empty (locals it));
    unfold dispatched in *; cbn [omap list_omap];
    rewrite Htail; reflexivity.
Qed.

Lemma dispatched_iterations camera (l : list (Iteration F)) :
  Forall (fun it => exists tail, dispatch_then_printer camera it tail
                                 /\ Forall aside tail) l ->
  dispatched (concat (map events l)) = frames l.
Proof.
  induction 1 as [ | it l (tail & Hshape & Has) _ IH ]; [ reflexivity | ].
  cbn [map concat]. rewrite dispatched_app, IH.
  rewrite (dispatched_events camera it tail Hshape Has). reflexivity.
Qed.

Lemma frames_app (l l' : list (Iteration F)) :
  frames (l ++ l') = frames l ++ frames l'.
Proof. apply map_app. Qed.

Lemma dispatched_loop_events camera samples (groups : list (list (Iteration F))) :
  Forall (fun it => exists tail, dispatch_then_printer camera it tail
                                 /\ Forall aside tail) (concat groups) ->
  dispatched (loop_events samples groups) = frames (concat (take (length samples) groups)).
Proof.
  revert groups. induction samples as [ | s rest IH ]; intros [ | g groups ] Hall;
    try reflexivity.
  unfold loop_events in *. cbn [zip_with concat length take].
  cbn [concat] in Hall. apply Forall_app in Hall as (Hg & Hrest).
  rewrite dispatched_app, frames_app, IH by exact Hrest.
  change (Did (PipelineUpdate (time (point s))) :: concat (map events g))
    with ([Did (PipelineUpdate (time (point s)))] ++ concat (map events g)).
  rewrite dispatched_app, (dispatched_iterations camera g Hg). reflexivity.
Qed.

Lemma total_length (samples : list (ShutterSample F))
    (groups : list (list (Iteration F))) :
  Forall (fun s => 0 <= spp s) samples ->
  Forall2 (fun s g => length g = Z.to_nat (spp s)) samples groups ->
  Z.of_nat (length (concat groups)) = total_sub_samples samples.
Proof.
  intros Hpos Hlen. induction Hlen as [ | s g samples groups Hg _ IH ];
    [ reflexivity | ].
  apply Forall_cons in Hpos as (Hs & Hpos).
  unfold total_sub_samples in *. cbn [concat map fold_right].
  rewrite length_app, Nat2Z.inj_add, IH, Hg by exact Hpos. lia.
Qed.

Lemma iteration_shape_all inst camera v w l v' w' :
  runs rt inst camera v w l v' w' ->
  Forall (fun it => exists tail, dispatch_then_printer camera it tail
                                 /\ Forall aside tail) l.
Proof.
  apply runs_all. intros s v0 w0.
  destruct (iteration_events rt inst camera s v0 w0) as (tail & H1 & H2 & _).
  exists tail. split; assumption.
Qed.

Lemma prologue_no_dispatch (camera : Camera F) :
  Forall (fun c => is_dispatch (Did c) = false) (prologue camera).
Proof. repeat constructor. Qed.

Lemma epilogue_no_dispatch :
  Forall (fun c => is_dispatch (@Did F c) = false) epilogue.
Proof. repeat constructor. Qed.

(** C1: when the sub-sample counts of the shutter samples, none of them
    negative, sum to the spp [S] of the camera, the single-camera function
    submits exactly [S] dispatches, their sample indices are 0, 1, ...,
    [S]-1 in submission order, and the sample index it ends with is [S]. *)
Theorem render_one_camera_dispatches inst (camera : Camera F) (w : World) :
  Forall (fun s => 0 <= spp s) (camera_shutter_samples camera) ->
  total_sub_samples (camera_shutter_samples camera) = camera_spp camera ->
  camera_spp camera < uint_modulus ->
  let r := _render_one_camera rt inst camera w in
  dispatched (log r) = seqZ 0 (camera_spp camera)
  /\ Z.of_nat (length (dispatched (log r))) = camera_spp camera
  /\ frames (iterations r) = seqZ 0 (camera_spp camera)
  /\ sample_id (value r).1 = camera_spp camera.
Proof.
  intros Hpos Hsum Hmax. cbv zeta. unfold iterations.
  rewrite render_one_camera_unfold. cbv zeta. cbn [value world log].
  set (w0 := after rt (prologue camera) w).
  destruct (shutter_loop_spec rt inst camera (camera_shutter_samples camera)
              {| dispatch_count := 0; sample_id := 0 |} w0)
    as (Hruns & Hlog & Hlen).
  set (r := shutter_loop rt inst camera _ _ w0) in *.
  pose proof (total_length _ _ Hpos Hlen) as Htotal. rewrite Hsum in Htotal.
  destruct (runs_frames _ _ _ _ _ _ _ Hruns) as (Hframes & Hlast);
    cbn [sample_id]; [ lia | lia | ].
  cbn [sample_id] in Hframes, Hlast. rewrite Htotal in Hframes, Hlast.
  assert (Hd : dispatched (map Did (prologue camera) ++ log r ++ map Did epilogue)
               = seqZ 0 (camera_spp camera)).
  { rewrite !dispatched_app, Hlog.
    rewrite (dispatched_commands _ (prologue_no_dispatch camera)).
    rewrite (dispatched_commands _ epilogue_no_dispatch).
    rewrite (dispatched_loop_events camera)
      by exact (iteration_shape_all _ _ _ _ _ _ _ Hruns).
    rewrite (Forall2_length _ _ _ Hlen), firstn_all, app_nil_r. exact Hframes. }
  split; [ exact Hd | split; [ | split; [ exact Hframes | lia ] ] ].
  rewrite Hd, length_seqZ. apply Z2Nat.id.
  rewrite <- Htotal. lia.
Qed.

End Dispatches.

(** ** The printer check *)

Section Printer.

Import ProgressiveIntegrator.

Context {F World : Type} (rt : Runtime F World).


End Printer.

(** ** The drain loop *)

Section Drain.

Import ProgressiveIntegrator.

Context {F World : Type} (rt : Runtime F World).

Lemma drain_step fuel inst d w :
  _display inst = Some d ->
  drain rt (S fuel) inst w =
  if (rt_ask rt DisplayIdle w).1
  then make_run (value (drain rt fuel inst (rt_ask rt DisplayIdle w).2))
                (world (drain rt fuel inst (rt_ask rt DisplayIdle w).2))
                (Asked DisplayIdle true
                 :: log (drain rt fuel inst (rt_ask rt DisplayIdle w).2))
  else make_run true (rt_ask rt DisplayIdle w).2 [Asked DisplayIdle false].
Proof.
  intros Hd. cbn [drain]. rewrite Hd, run_bind. cbn [value world log ask].
  destruct (rt_ask rt DisplayIdle w).1 eqn:Hanswer; reflexivity.
Qed.

Lemma drain_without_display fuel inst w :
  _display inst = None -> drain rt fuel inst w = make_run true w [].
Proof. intros Hd. destruct fuel; cbn [drain]; rewrite Hd; reflexivity. Qed.

Lemma idle_world_succ k w :
  idle_world rt (S k) w = idle_world rt k (rt_ask rt DisplayIdle w).2.
Proof. unfold idle_world. rewrite Nat.iter_succ_r. reflexivity. Qed.

Lemma idle_answer_first w : idle_answer rt 0 w = (rt_ask rt DisplayIdle w).1.
Proof. reflexivity. Qed.

Lemma drain_exits inst d n :
  _display inst = Some d ->
  forall w fuel,
    (forall k, (k < n)%nat -> idle_answer rt k w = true) ->
    idle_answer rt n w = false ->
    (n < fuel)%nat ->
    drain rt fuel inst w =
    make_run true (idle_world rt (S n) w)
      (repeat (Asked DisplayIdle true) n ++ [Asked DisplayIdle false]).
Proof.
  intros Hd. induction n as [ | n IH ]; intros w fuel Hbefore Hlast Hfuel;
    (destruct fuel as [ | fuel ]; [ lia | ]); rewrite (drain_step _ _ d) by exact Hd.
  - rewrite idle_answer_first in Hlast. rewrite Hlast. reflexivity.
  - pose proof (Hbefore 0%nat ltac:(lia)) as H0.
    rewrite idle_answer_first in H0. rewrite H0.
    rewrite (IH (rt_ask rt DisplayIdle w).2 fuel).
    + cbn [value world log repeat app]. rewrite <- idle_world_succ. reflexivity.
    + intros k Hk. specialize (Hbefore (S k) ltac:(lia)).
      unfold idle_answer in *. rewrite idle_world_succ in Hbefore. exact Hbefore.
    + unfold idle_answer in *. rewrite idle_world_succ in Hlast. exact Hlast.
    + lia.
Qed.

Lemma drain_runs_out inst d fuel :
  _display inst = Some d ->
  forall w,
    (forall k, idle_answer rt k w = true) ->
    drain rt fuel inst w =
    make_run false (idle_world rt fuel w) (repeat (Asked DisplayIdle true) fuel).
Proof.
  intros Hd. induction fuel as [ | fuel IH ]; intros w Hidle.
  - cbn [drain]. rewrite Hd. reflexivity.
  - rewrite (drain_step _ _ d) by exact Hd.
    pose proof (Hidle 0%nat) as H0.
    rewrite idle_answer_first in H0. rewrite H0.
    rewrite IH.
    + cbn [value world log repeat]. rewrite <- idle_world_succ. reflexivity.
    + intros k. specialize (Hidle (S k)).
      unfold idle_answer in *. rewrite idle_world_succ in Hidle. exact Hidle.
Qed.

Lemma render_cameras_step fuel inst camera rest w :
  render_cameras rt fuel inst (camera :: rest) w =
  let r1 := _render_one_camera rt inst camera
              (after rt (preparation inst camera) w) in
  let r2 := drain rt fuel inst (world r1) in
  let r3 := render_cameras rt fuel inst rest (after rt (readout camera) (world r2)) in
  if value r2
  then make_run (value r3) (world r3)
         (map Did (preparation inst camera) ++ log r1 ++ log r2
          ++ map Did (readout camera) ++ log r3)
  else make_run false (world r2)
         (map Did (preparation inst camera) ++ log r1 ++ log r2).
Proof.
  cbv zeta. cbn [render_cameras]. unfold preparation.
  destruct (_display inst) as [d|]; rewrite !run_bind;
    cbn [value world log perform after fold_left map app];
    rewrite ?run_ret; cbn [value world log app];
    destruct (value (drain rt fuel inst _)) eqn:Hexit;
    rewrite ?run_bind, ?run_ret; cbn [value world log perform app];
    rewrite ?app_nil_r, <- ?app_assoc; reflexivity.
Qed.

(** C3, as the code has it: after the single-camera function and before
    the download of a camera, [render] runs the drain loop.  Without a
    display the loop does nothing.  With a display it calls [idle] again
    exactly while the call answers yes: when the first [n] calls answer
    yes and the next one answers no, it makes those [n]+1 calls and is
    left; when every call answers yes, it is never left. *)
Theorem drain_polls_while_idle inst (w : World) :
  (forall fuel camera rest w0,
     let r1 := _render_one_camera rt inst camera
                 (after rt (preparation inst camera) w0) in
     let r2 := drain rt fuel inst (world r1) in
     exists continuation,
       log (render_cameras rt fuel inst (camera :: rest) w0) =
       map Did (preparation inst camera) ++ log r1 ++ log r2 ++
       (if value r2
        then Did (FilmDownload camera
                    (to_uint (x (camera_resolution camera)
                              * y (camera_resolution camera))))
             :: continuation
        else []))
  /\ (_display inst = None ->
      forall fuel, drain rt fuel inst w = make_run true w [])
  /\ (is_Some (_display inst) ->
      forall n,
        (forall k, (k < n)%nat -> idle_answer rt k w = true) ->
        idle_answer rt n w = false ->
        forall fuel, (n < fuel)%nat ->
          drain rt fuel inst w =
          make_run true (idle_world rt (S n) w)
            (repeat (Asked DisplayIdle true) n ++ [Asked DisplayIdle false]))
  /\ (is_Some (_display inst) ->
      (forall k, idle_answer rt k w = true) ->
      forall fuel,
        drain rt fuel inst w =
        make_run false (idle_world rt fuel w)
          (repeat (Asked DisplayIdle true) fuel)).
Proof.
  split; [ | split; [ | split ] ].
  - intros fuel camera rest w0. cbv zeta. rewrite render_cameras_step. cbv zeta.
    destruct (value (drain rt fuel inst _)).
    + eexists. cbn [log readout map app]. reflexivity.
    + exists []. cbn [log]. rewrite app_nil_r. reflexivity.
  - intros Hd fuel. apply drain_without_display, Hd.
  - intros [d Hd] n Hbefore Hlast fuel Hfuel.
    exact (drain_exits inst d n Hd w fuel Hbefore Hlast Hfuel).
  - intros [d Hd] Hidle fuel. exact (drain_runs_out inst d fuel Hd w Hidle).
Qed.

End Drain.

(** ** Sampler reset before the dispatches *)

Section Reset.

Import ProgressiveIntegrator.

Context {F World : Type} (rt : Runtime F World).

Lemma within_aside (camera : Camera F) (e : Event F) :
  aside e -> within camera e.
Proof.
  intros (Hd & _ & Hr). split; [ exact Hr | ].
  rewrite Hd. discriminate.
Qed.

Lemma within_events camera (it : Iteration F) tail :
  dispatch_then_printer camera it tail -> Forall aside tail ->
  Forall (within camera) (events it).
Proof.
  intros (t & wt & Hev) Has. rewrite Hev.
  assert (Htail : Forall (within camera) tail).
  { eapply Forall_impl; [ exact Has | apply within_aside ]. }
  constructor.
  { split; [ reflexivity | ]. intros _. eauto. }
  constructor.
  { split; [ reflexivity | discriminate ]. }
  destruct (printer_empty (locals it)); [ exact Htail | ].
  constructor; [ | exact Htail ].
  split; [ reflexivity | discriminate ].
Qed.

Lemma within_iterations camera (l : list (Iteration F)) :
  Forall (fun it => exists tail, dispatch_then_printer camera it tail
                                 /\ Forall aside tail) l ->
  Forall (within camera) (concat (map events l)).
Proof.
  induction 1 as [ | it l (tail & Hshape & Has) _ IH ]; [ constructor | ].
  cbn [map concat]. apply Forall_app. split; [ | exact IH ].
  exact (within_events camera it tail Hshape Has).
Qed.

Lemma within_loop_events camera samples (groups : list (list (Iteration F))) :
  Forall (fun it => exists tail, dispatch_then_printer camera it tail
                                 /\ Forall aside tail) (concat groups) ->
  Forall (within camera) (loop_events samples groups).
Proof.
  revert groups. induction samples as [ | s rest IH ]; intros [ | g groups ] Hall;
    try constructor.
  - split; [ reflexivity | discriminate ].
  - cbn [concat] in Hall. apply Forall_app in Hall as (Hg & Hrest).
    fold (concat (zip_with
      (fun s g => Did (PipelineUpdate (time (point s)))
                  :: concat (map events g)) rest groups)).
    apply Forall_app. split.
    + exact (within_iterations camera g Hg).
    + exact (IH groups Hrest).
Qed.

Lemma within_drain camera fuel inst :
  forall w, Forall (within camera) (log (drain rt fuel inst w)).
Proof.
  destruct (_display inst) as [d|] eqn:Hd.
  - induction fuel as [ | fuel IH ]; intros w.
    + cbn [drain]. rewrite Hd. constructor.
    + rewrite (drain_step rt fuel inst d w Hd).
      destruct (rt_ask rt DisplayIdle w).1; cbn [log];
        repeat constructor; try discriminate. apply IH.
  - intros w. rewrite drain_without_display by exact Hd. constructor.
Qed.

Lemma render_one_camera_reset_first inst (camera : Camera F) (w : World) :
  exists rest,
    log (_render_one_camera rt inst camera w) =
      Did (SamplerReset (camera_resolution camera)
             (to_uint (x (camera_resolution camera) * y (camera_resolution camera)))
             (camera_spp camera)) :: rest
    /\ Forall (within camera) rest.
Proof.
  rewrite render_one_camera_unfold. cbv zeta. cbn [log prologue map app].
  eexists. split; [ reflexivity | ].
  set (w0 := after rt _ w).
  destruct (shutter_loop_spec rt inst camera (camera_shutter_samples camera)
              {| dispatch_count := 0; sample_id := 0 |} w0)
    as (Hruns & Hlog & Hlen).
  repeat (constructor; [ split; [ reflexivity | discriminate ] | ]).
  apply Forall_app. split.
  - rewrite Hlog. apply within_loop_events.
    exact (iteration_shape_all rt _ _ _ _ _ _ _ Hruns).
  - repeat constructor; discriminate.
Qed.

Lemma render_cameras_segments fuel inst cams :
  forall w,
    let r := render_cameras rt fuel inst cams w in
    exists segments,
      log r = concat segments
      /\ Forall2 reset_first (take (length segments) cams) segments
      /\ (value r = true -> length segments = length cams).
Proof.
  induction cams as [ | camera rest IH ]; intros w; cbv zeta.
  - exists []. cbn. split; [ reflexivity | split; [ constructor | reflexivity ] ].
  - rewrite render_cameras_step. cbv zeta.
    set (w1 := after rt (preparation inst camera) w).
    destruct (render_one_camera_reset_first inst camera w1) as (tail & Hlog & Htail).
    set (r1 := _render_one_camera rt inst camera w1) in *.
    pose proof (within_drain camera fuel inst (world r1)) as Hdrain.
    set (r2 := drain rt fuel inst (world r1)) in *.
    assert (Hprep : Forall (fun e : Event F => is_dispatch e = false)
                      (map Did (preparation inst camera))).
    { unfold preparation. destruct (_display inst); repeat constructor. }
    destruct (value r2).
    + destruct (IH (after rt (readout camera) (world r2))) as (segs & Hsegs & Hall & Hlen).
      exists ((map Did (preparation inst camera) ++ log r1 ++ log r2
               ++ map Did (readout camera)) :: segs).
      cbn [log value concat length take]. split; [ | split ].
      * rewrite Hsegs, <- !app_assoc. reflexivity.
      * constructor; [ | exact Hall ].
        exists (map Did (preparation inst camera)),
               (tail ++ log r2 ++ map Did (readout camera)).
        split; [ rewrite Hlog; reflexivity | ].
        split; [ exact Hprep | ].
        apply Forall_app. split; [ exact Htail | ].
        apply Forall_app. split; [ exact Hdrain | ].
        repeat constructor; discriminate.
      * intros Hdone. rewrite (Hlen Hdone). reflexivity.
    + exists [map Did (preparation inst camera) ++ log r1 ++ log r2].
      cbn [log value concat length take]. split; [ | split ].
      * rewrite app_nil_r. reflexivity.
      * constructor; [ | constructor ].
        exists (map Did (preparation inst camera)), (tail ++ log r2).
        split; [ rewrite Hlog; reflexivity | ].
        split; [ exact Hprep | ].
        apply Forall_app. split; assumption.
      * discriminate.
Qed.

(** The pixel count of lines 44 and 65 is the product of the two sides as
    long as that product fits an [unsigned int]. *)
Lemma pixel_count_exact (resolution : uint2) :
  0 <= x resolution * y resolution < uint_modulus ->
  to_uint (x resolution * y resolution) = x resolution * y resolution.
Proof. intros Hfits. unfold to_uint. apply Z.mod_small, Hfits. Qed.

(** C8: the log of the single-camera function starts with the sampler
    reset carrying the resolution, the pixel count (the unsigned product of
    the two sides) and the spp of the camera, and every dispatch in it
    comes later.  The log of [render] is one segment per camera, in the
    order of the pipeline (all of them when [render] returns): each has no
    dispatch before the sampler reset of its camera, and after it no other
    sampler reset and only dispatches for that camera. *)
Theorem sampler_reset_before_dispatch inst (fuel : nat) (w : World) :
  (forall camera w0,
     exists rest,
       log (_render_one_camera rt inst camera w0) =
         Did (SamplerReset (camera_resolution camera)
                (to_uint (x (camera_resolution camera) * y (camera_resolution camera)))
                (camera_spp camera)) :: rest
       /\ Forall (within camera) rest)
  /\ exists segments,
       log (render rt fuel inst w) = concat segments
       /\ Forall2 reset_first
            (take (length segments) (cameras (pipeline inst))) segments
       /\ (value (render rt fuel inst w) = true ->
           length segments = length (cameras (pipeline inst))).
Proof.
  split.
  - intros camera w0. apply render_one_camera_reset_first.
  - unfold render. apply render_cameras_segments.
Qed.

End Reset.

(** ** The light-sampler slot *)

Section LightSamplerSlot.

Import ProgressiveIntegrator.

Context {F World : Type} (rt : Runtime F World).

Lemma sub_samples_slot inst ls camera s n :
  forall v w,
    sub_samples rt (with_light_sampler inst ls) camera s n v w
    = sub_samples rt inst camera s n v w.
Proof.
  induction n as [ | n IH ]; intros v w; [ reflexivity | ].
  rewrite !sub_samples_step. cbv zeta.
  change (iteration rt (with_light_sampler inst ls) camera s v w)
    with (iteration rt inst camera s v w).
  rewrite IH. reflexivity.
Qed.

Lemma shutter_loop_slot inst ls camera samples :
  forall v w,
    shutter_loop rt (with_light_sampler inst ls) camera samples v w
    = shutter_loop rt inst camera samples v w.
Proof.
  induction samples as [ | s rest IH ]; intros v w; [ reflexivity | ].
  rewrite !shutter_loop_step. cbv zeta.
  rewrite sub_samples_slot, IH. reflexivity.
Qed.

Lemma render_one_camera_slot inst ls camera w :
  _render_one_camera rt (with_light_sampler inst ls) camera w
  = _render_one_camera rt inst camera w.
Proof.
  rewrite !render_one_camera_unfold. cbv zeta.
  rewrite shutter_loop_slot. reflexivity.
Qed.

Lemma drain_slot inst ls fuel :
  forall w, drain rt fuel (with_light_sampler inst ls) w = drain rt fuel inst w.
Proof.
  induction fuel as [ | fuel IH ]; intros w; [ reflexivity | ].
  cbn [drain with_light_sampler _display].
  destruct (_display inst); [ | reflexivity ].
  rewrite !run_bind. cbn [value world log ask].
  destruct (rt_ask rt DisplayIdle w).1; [ | reflexivity ].
  rewrite <- IH. reflexivity.
Qed.

Lemma render_cameras_slot inst ls fuel cams :
  forall w,
    render_cameras rt fuel (with_light_sampler inst ls) cams w
    = render_cameras rt fuel inst cams w.
Proof.
  induction cams as [ | camera rest IH ]; intros w; [ reflexivity | ].
  rewrite !render_cameras_step. cbv zeta.
  change (preparation (with_light_sampler inst ls) camera)
    with (preparation inst camera).
  rewrite render_one_camera_slot, drain_slot, IH. reflexivity.
Qed.

(** C6: the instance made by the constructor has a light-sampler instance
    exactly when the pipeline reports lighting, and none otherwise; the
    light sampler is built exactly in that case; the progressive instance
    takes the slot over as it is; [render] reads the instance and returns
    no new one, and it does the same whatever the slot holds: it never
    looks into it. *)
Theorem light_sampler_iff_lighting (p : Pipeline F) (n : ProgressiveIntegrator.t)
    (w : World) :
  let r := Integrator.Instance_new rt p (base n) w in
  (is_Some (Integrator._light_sampler (value r)) <-> has_lighting p = true)
  /\ (Integrator._light_sampler (value r) = None <-> has_lighting p = false)
  /\ (Did (LightSamplerBuild (Integrator.light_sampler (base n))) ∈ log r
      <-> has_lighting p = true)
  /\ Integrator._light_sampler (super (value (Instance_new rt p n w)))
     = Integrator._light_sampler (value r)
  /\ (forall inst ls fuel w',
        render rt fuel (with_light_sampler inst ls) w' = render rt fuel inst w').
Proof.
  cbv zeta. unfold Instance_new, Integrator.Instance_new.
  rewrite !run_bind. cbn [value world log perform].
  destruct (has_lighting p) eqn:Hl;
    rewrite ?run_bind, ?run_ret;
    cbn [value world log perform Integrator._light_sampler super app].
  - split; [ split; [ reflexivity | eauto ] | ].
    split; [ split; discriminate | ].
    split; [ split; [ reflexivity | ] | ].
    { intros _. apply elem_of_cons. right. apply elem_of_cons. left. reflexivity. }
    split; [ reflexivity | ].
    intros inst ls fuel w'. unfold render. apply render_cameras_slot.
  - split; [ split; [ intros [ls Hls]; discriminate | discriminate ] | ].
    split; [ split; reflexivity | ].
    split; [ split; [ | discriminate ] | ].
    { intros Hin. apply elem_of_cons in Hin as [Hin | Hin]; [ discriminate | ].
      inversion Hin. }
    split; [ reflexivity | ].
    intros inst ls fuel w'. unfold render. apply render_cameras_slot.
Qed.

End LightSamplerSlot.

(** ** The commit cadence *)

Section Cadence.

Import ProgressiveIntegrator.

Context {F World : Type} (rt : Runtime F World).

Lemma iteration_cadence inst camera s v w :
  let it := (value (iteration rt inst camera s v w)).2 in
  cadence (locals it) = cadence_for inst (should_close (locals it))
  /\ (is_Some (should_close (locals it)) <-> is_Some (_display inst))
  /\ (forall b, should_close (locals it) = Some b <->
                Asked DisplayShouldClose b ∈ events it).
Proof.
  cbv zeta. split; [ | split ].
  - rewrite iteration_unfold. cbv zeta. rewrite body_unfold. cbv zeta.
    cbn [value fst snd locals cadence should_close].
    rewrite dispatches_per_commit_run. unfold cadence_for.
    destruct (_display inst); cbn [value fst snd]; [ | reflexivity ].
    destruct (rt_ask rt DisplayShouldClose _).1; reflexivity.
  - rewrite iteration_unfold. cbv zeta. rewrite body_unfold. cbv zeta.
    cbn [value fst snd locals should_close].
    rewrite dispatches_per_commit_run.
    destruct (_display inst); cbn [value fst]; split; intros [a Ha];
      try discriminate; eauto.
  - intros b.
    destruct (iteration_events rt inst camera s v w)
      as (tail & (t & wt & Hev) & _ & _ & Hclose).
    rewrite (Hclose b), Hev.
    destruct (printer_empty _); rewrite !elem_of_cons; split; intros H;
      try tauto;
      repeat (destruct H as [H | H]; [ discriminate | ]); exact H.
Qed.

Section Stays.

Hypothesis Hstay : close_request_stays rt.

Lemma keeps_ret {A} (a : A) : keeps rt (mret a).
Proof. intros w Hw. exact Hw. Qed.

Lemma keeps_perform c : keeps rt (perform rt c).
Proof. intros w Hw. exact (proj1 (Hstay w Hw) c). Qed.

Lemma keeps_ask q : keeps rt (ask rt q).
Proof. intros w Hw. exact (proj2 (Hstay w Hw) q). Qed.

Lemma keeps_bind {A B} (m : M F World A) (k : A -> M F World B) :
  keeps rt m -> (forall a, keeps rt (k a)) -> keeps rt (m ≫= k).
Proof. intros Hm Hk w Hw. rewrite run_bind. apply Hk, Hm, Hw. Qed.

Lemma keeps_printer_check : keeps rt (printer_check rt).
Proof.
  unfold printer_check. apply keeps_bind; [ apply keeps_ask | ].
  intros e. apply keeps_bind; [ | intros _; apply keeps_ret ].
  destruct e; [ apply keeps_ret | apply keeps_perform ].
Qed.

Lemma keeps_dispatches_per_commit inst : keeps rt (dispatches_per_commit rt inst).
Proof.
  unfold dispatches_per_commit. destruct (_display inst); [ | apply keeps_ret ].
  apply keeps_bind; [ apply keeps_ask | intros b; apply keeps_ret ].
Qed.

Lemma keeps_commit_if fired inst spp id : keeps rt (commit_if rt fired inst spp id).
Proof.
  unfold commit_if, commit. destruct fired; [ | apply keeps_ret ].
  destruct (_display inst); [ | apply keeps_perform ].
  apply keeps_bind; [ apply keeps_ask | ].
  intros u. destruct u; apply keeps_perform.
Qed.

Lemma iteration_closing inst camera s v w :
  let r := iteration rt inst camera s v w in
  (close_requested rt w ->
   close_requested rt (world r) /\ cadence (locals (value r).2) = 32)
  /\ (should_close (locals (value r).2) = Some true ->
      close_requested rt (world r) /\ cadence (locals (value r).2) = 32).
Proof.
  cbv zeta. rewrite iteration_unfold. cbv zeta. rewrite body_unfold. cbv zeta.
  cbn [value world fst snd locals cadence should_close].
  set (w1 := rt_do rt _ w).
  assert (H2 : close_requested rt w ->
               (rt_ask rt DisplayShouldClose (world (printer_check rt w1))).1 = true).
  { intros Hw. exact (keeps_printer_check w1 (keeps_perform _ w Hw)). }
  generalize dependent (printer_check rt w1). intros r2 H2.
  pose proof (keeps_dispatches_per_commit inst (world r2)) as Hdpc.
  rewrite dispatches_per_commit_run in *.
  unfold close_requested.
  destruct (_display inst); cbn [value world fst snd] in *.
  - split.
    + intros Hw. specialize (H2 Hw).
      split; [ apply keeps_commit_if, Hdpc, H2 | ].
      rewrite H2. reflexivity.
    + intros [= Hb]. split; [ apply keeps_commit_if, Hdpc, Hb | ].
      rewrite Hb. reflexivity.
  - split; [ | discriminate ].
    intros Hw. split; [ apply keeps_commit_if, (H2 Hw) | reflexivity ].
Qed.

Lemma runs_closing inst camera v w l v' w' :
  runs rt inst camera v w l v' w' ->
  close_requested rt w ->
  Forall (fun it => cadence (locals it) = 32) l.
Proof.
  induction 1 as [ v w | t v w l v' w' _ IH | s v w l v' w' _ IH ]; intros Hw.
  - constructor.
  - apply IH. exact (keeps_perform _ w Hw).
  - destruct (proj1 (iteration_closing inst camera s v w) Hw) as (Hw' & Hc).
    constructor; [ exact Hc | apply IH, Hw' ].
Qed.

Lemma runs_after_close inst camera v w l v' w' :
  runs rt inst camera v w l v' w' ->
  forall l1 it l2,
    l = l1 ++ it :: l2 ->
    should_close (locals it) = Some true ->
    Forall (fun it' => cadence (locals it') = 32) (it :: l2).
Proof.
  induction 1 as [ v w | t v w l v' w' _ IH | s v w l v' w' Hruns IH ];
    intros l1 it l2 Hl Hclose.
  - destruct l1; discriminate.
  - exact (IH l1 it l2 Hl Hclose).
  - destruct l1 as [ | it1 l1 ]; cbn [app] in Hl.
    + injection Hl as <- <-.
      destruct (proj2 (iteration_closing inst camera s v w) Hclose) as (Hw' & Hc).
      constructor; [ exact Hc | ].
      exact (runs_closing _ _ _ _ _ _ _ Hruns Hw').
    + injection Hl as _ Hl. exact (IH l1 it l2 Hl Hclose).
Qed.

End Stays.

Lemma iteration_cadence_in inst camera s v w :
  cadence (locals (value (iteration rt inst camera s v w)).2)
  = cadence_in rt inst (question_world rt camera s v w).
Proof.
  rewrite iteration_unfold. cbv zeta. rewrite body_unfold. cbv zeta.
  cbn [value fst snd locals cadence].
  rewrite dispatches_per_commit_run. unfold cadence_in, question_world.
  destruct (_display inst); cbn [value fst snd]; [ | reflexivity ].
  destruct (rt_ask rt DisplayShouldClose _).1; reflexivity.
Qed.

Lemma runs_cadence_in inst camera v w l v' w' :
  runs rt inst camera v w l v' w' ->
  Forall (fun it => exists s v0 w0,
            it = (value (iteration rt inst camera s v0 w0)).2
            /\ cadence (locals it)
               = cadence_in rt inst (question_world rt camera s v0 w0)) l.
Proof.
  induction 1 as [ v w | t v w l v' w' _ IH | s v w l v' w' _ IH ].
  - constructor.
  - exact IH.
  - constructor; [ | exact IH ].
    exists s, v, w. split; [ reflexivity | apply iteration_cadence_in ].
Qed.

Lemma runs_cadence_constant inst camera v w l v' w' (c : Z) :
  (forall w0, cadence_in rt inst w0 = c) ->
  runs rt inst camera v w l v' w' ->
  Forall (fun it => cadence (locals it) = c) l.
Proof.
  intros Hc Hruns. eapply Forall_impl; [ exact (runs_cadence_in _ _ _ _ _ _ _ Hruns) | ].
  intros it (s & v0 & w0 & _ & ->). apply Hc.
Qed.

(** C2, as the code has it: in every run of the loop body the cadence is
    the configured display interval when there is a display and its
    [should_close], asked in that run after the dispatch and the printer
    check, answers no; it is 32 when there is no display (nothing is asked
    then) and when the answer is yes.  So the cadence is 32 throughout
    without a display, the display interval throughout with a display that
    never asks to be closed, and 32 throughout with one that always does.
    The question is asked afresh in every run: the cadence is 32 in the run
    that got the yes, and in all the runs after it in the loop of that
    camera when the close request of the display stays up once signalled. *)
Theorem commit_cadence inst (camera : Camera F) (w : World) :
  let r := _render_one_camera rt inst camera w in
  Forall (fun it =>
            cadence (locals it) = cadence_for inst (should_close (locals it))
            /\ (is_Some (should_close (locals it)) <-> is_Some (_display inst))
            /\ (forall b, should_close (locals it) = Some b <->
                          Asked DisplayShouldClose b ∈ events it))
         (iterations r)
  /\ Forall (fun it => exists s v0 w0,
               it = (value (iteration rt inst camera s v0 w0)).2
               /\ cadence (locals it)
                  = cadence_in rt inst (question_world rt camera s v0 w0))
            (iterations r)
  /\ (_display inst = None ->
      Forall (fun it => cadence (locals it) = 32) (iterations r))
  /\ (is_Some (_display inst) ->
      (forall w0, (rt_ask rt DisplayShouldClose w0).1 = false) ->
      Forall (fun it => cadence (locals it) = display_interval (node inst))
             (iterations r))
  /\ ((forall w0, (rt_ask rt DisplayShouldClose w0).1 = true) ->
      Forall (fun it => cadence (locals it) = 32) (iterations r))
  /\ (close_request_stays rt ->
      forall l1 it l2,
        iterations r = l1 ++ it :: l2 ->
        should_close (locals it) = Some true ->
        Forall (fun it' => cadence (locals it') = 32) (it :: l2)).
Proof.
  cbv zeta. unfold iterations.
  rewrite render_one_camera_unfold. cbv zeta. cbn [value].
  set (w0 := after rt (prologue camera) w).
  destruct (shutter_loop_spec rt inst camera (camera_shutter_samples camera)
              {| dispatch_count := 0; sample_id := 0 |} w0)
    as (Hruns & _ & _).
  split; [ | split; [ | split; [ | split; [ | split ] ] ] ].
  - eapply runs_all; [ | exact Hruns ].
    intros s v0 w1. apply iteration_cadence.
  - exact (runs_cadence_in _ _ _ _ _ _ _ Hruns).
  - intros Hnone. eapply runs_cadence_constant; [ | exact Hruns ].
    intros w1. unfold cadence_in. rewrite Hnone. reflexivity.
  - intros [d Hd] Hopen. eapply runs_cadence_constant; [ | exact Hruns ].
    intros w1. unfold cadence_in. rewrite Hd, Hopen. reflexivity.
  - intros Hclosed. eapply runs_cadence_constant; [ | exact Hruns ].
    intros w1. unfold cadence_in. rewrite Hclosed.
    destruct (_display inst); reflexivity.
  - intros Hstay l1 it l2. exact (runs_after_close Hstay _ _ _ _ _ _ _ Hruns l1 it l2).
Qed.

End Cadence.


(** ** The commits *)

Section Commits.

Import ProgressiveIntegrator.

Context {F World : Type} (rt : Runtime F World).

Lemma iteration_counter inst camera s v w :
  let r := iteration rt inst camera s v w in
  let n := locals (value r).2 in
  counter n = to_uint (dispatch_count v + 1)
  /\ committed n = (counter n mod cadence n =? 0)
  /\ dispatch_count (value r).1 = (if committed n then 0 else counter n).
Proof.
  cbv zeta. rewrite iteration_unfold. cbv zeta. rewrite body_unfold. cbv zeta.
  repeat split.
Qed.

Lemma cadence_for_values (inst : Instance F) answer :
  cadence_for inst answer = 32
  \/ cadence_for inst answer = display_interval (node inst).
Proof.
  unfold cadence_for. destruct (_display inst); [ | left; reflexivity ].
  destruct answer as [ [ | ] | ]; auto.
Qed.

Lemma runs_chain inst camera v w l v' w' :
  1 <= display_interval (node inst) <= 65535 ->
  runs rt inst camera v w l v' w' ->
  0 <= dispatch_count v < 32 * display_interval (node inst) ->
  commit_chain (dispatch_count v) l
  /\ dispatch_count v' = counter_after (dispatch_count v) l
  /\ 0 <= dispatch_count v' < 32 * display_interval (node inst).
Proof.
  intros Hinterval.
  induction 1 as [ v w | t v w l v' w' _ IH | s v w l v' w' _ IH ]; intros Hc.
  - cbn. auto.
  - apply IH, Hc.
  - destruct (iteration_counter inst camera s v w) as (Hcount & Hfired & Hnext).
    destruct (iteration_cadence rt inst camera s v w) as (Hcad & _).
    set (r := iteration rt inst camera s v w) in *.
    set (n := locals (value r).2) in *.
    assert (Hexact : counter n = dispatch_count v + 1).
    { rewrite Hcount. unfold to_uint, uint_modulus.
      change (2 ^ 32) with 4294967296. apply Z.mod_small. lia. }
    assert (Hiff : committed n = true <-> (dispatch_count v + 1) mod cadence n = 0).
    { rewrite Hfired, Hexact. apply Z.eqb_eq. }
    assert (Hbound : committed n = false ->
                     dispatch_count v + 1 < 32 * display_interval (node inst)).
    { intros Hno.
      destruct (Z.eq_dec (dispatch_count v + 1) (32 * display_interval (node inst)))
        as [ Heq | Hne ]; [ | lia ].
      assert (committed n = true); [ | congruence ].
      apply Hiff. rewrite Heq, Hcad.
      destruct (cadence_for_values inst (should_close n)) as [ -> | -> ].
      - rewrite Z.mul_comm. apply Z.mod_mul. lia.
      - apply Z.mod_mul. lia. }
    cbn [commit_chain counter_after]. fold n.
    rewrite Hnext, Hexact in IH. rewrite Hexact.
    destruct IH as (IHchain & IHlast & IHbound).
    { destruct (committed n); [ lia | ]. specialize (Hbound eq_refl). lia. }
    auto.
Qed.

Lemma chain_app c (l1 l : list (Iteration F)) :
  commit_chain c (l1 ++ l) -> commit_chain (counter_after c l1) l.
Proof.
  revert c. induction l1 as [ | it l1 IH ]; intros c; [ trivial | ].
  cbn [app commit_chain counter_after]. intros (Hcount & _ & Hrest).
  rewrite Hcount. apply IH, Hrest.
Qed.

Lemma chain_uncommitted c (l2 : list (Iteration F)) it l3 :
  commit_chain c (l2 ++ it :: l3) ->
  uncommitted l2 ->
  counter (locals it) = c + Z.of_nat (length l2) + 1
  /\ (committed (locals it) = true <->
      (c + Z.of_nat (length l2) + 1) mod cadence (locals it) = 0).
Proof.
  revert c. induction l2 as [ | it2 l2 IH ]; intros c Hchain Hno.
  - cbn [app commit_chain length] in *. destruct Hchain as (Hcount & Hiff & _).
    rewrite Z.add_0_r. auto.
  - cbn [app commit_chain] in Hchain. destruct Hchain as (_ & _ & Hrest).
    apply Forall_cons in Hno as (Hit2 & Hno). rewrite Hit2 in Hrest.
    destruct (IH _ Hrest Hno) as (Hcount & Hiff).
    cbn [length]. rewrite Nat2Z.inj_succ.
    replace (c + Z.succ (Z.of_nat (length l2)) + 1)
      with (c + 1 + Z.of_nat (length l2) + 1) by lia.
    auto.
Qed.

Lemma counter_after_commit c (l : list (Iteration F)) it :
  committed (locals it) = true -> counter_after c (l ++ [it]) = 0.
Proof.
  intros Hit. revert c. induction l as [ | it' l IH ]; intros c.
  - cbn. rewrite Hit. reflexivity.
  - cbn [app counter_after]. apply IH.
Qed.

Lemma late_commit_example :
  let r := late_run in
  exists l1 previous l2 it l3,
    iterations r = l1 ++ previous :: l2 ++ it :: l3
    /\ committed (locals previous) = true
    /\ uncommitted l2
    /\ committed (locals it) = true
    /\ cadence (locals it) = 32
    /\ Z.of_nat (length l2) + 1 = 64.
Proof.
  cbv zeta.
  exists (take 39 (iterations late_run)), (late_iteration 39),
    (take 63 (drop 40 (iterations late_run))), (late_iteration 103),
    (drop 104 (iterations late_run)).
  split; [ vm_compute; reflexivity | ].
  split; [ vm_compute; reflexivity | ].
  split; [ vm_compute; repeat constructor | ].
  repeat split; vm_compute; reflexivity.
Qed.

(** C10: along the runs of the loop body for a camera, the counter goes up
    by one in every run; a run commits exactly when the incremented counter
    is a multiple of the cadence of that run; the counter goes back to 0
    after a commit and keeps the incremented value otherwise; a run reports
    progress exactly when it commits.  So after a commit (or the start) and
    [k] runs without one, the next run commits exactly when [k]+1 is a
    multiple of its own cadence, whatever the cadence was before.  In the
    session [late_session] the cadence goes from 40 to 32 with the counter
    at 34, and the next commit comes 64 dispatches after the one before. *)
Theorem commit_at_multiples_of_cadence (desc : SceneNodeDesc.t) (p : Pipeline F)
    (w0 : World) (camera : Camera F) (w : World) :
  let inst := value (Instance_new rt p (ProgressiveIntegrator.new desc) w0) in
  let r := _render_one_camera rt inst camera w in
  commit_chain 0 (iterations r)
  /\ dispatch_count (value r).1 = counter_after 0 (iterations r)
  /\ Forall (fun it => exists tail,
               dispatch_then_printer camera it tail /\ Forall aside tail
               /\ existsb is_progress_report tail = committed (locals it))
       (iterations r)
  /\ (forall l1 l2 it l3,
        iterations r = l1 ++ l2 ++ it :: l3 ->
        (l1 = [] \/ exists l previous,
                      l1 = l ++ [previous] /\ committed (locals previous) = true) ->
        uncommitted l2 ->
        counter (locals it) = Z.of_nat (length l2) + 1
        /\ (committed (locals it) = true <->
            (Z.of_nat (length l2) + 1) mod cadence (locals it) = 0))
  /\ (let r := late_run in
      exists l1 previous l2 it l3,
        iterations r = l1 ++ previous :: l2 ++ it :: l3
        /\ committed (locals previous) = true
        /\ uncommitted l2
        /\ committed (locals it) = true
        /\ cadence (locals it) = 32
        /\ Z.of_nat (length l2) + 1 = 64).
Proof.
  cbv zeta.
  set (inst := value (Instance_new rt p (ProgressiveIntegrator.new desc) w0)).
  assert (Hinterval : 1 <= display_interval (node inst) <= 65535)
    by exact (display_interval_range desc).
  assert (Hruns : exists v' w',
             runs rt inst camera {| dispatch_count := 0; sample_id := 0 |}
               (after rt (prologue camera) w)
               (iterations (_render_one_camera rt inst camera w)) v' w'
             /\ v' = (value (_render_one_camera rt inst camera w)).1).
  { unfold iterations. rewrite render_one_camera_unfold. cbv zeta. cbn [value].
    eexists _, _. split; [ | reflexivity ].
    apply shutter_loop_spec. }
  destruct Hruns as (v' & w' & Hruns & ->).
  destruct (runs_chain inst camera _ _ _ _ _ Hinterval Hruns)
    as (Hchain & Hlast & _); [ cbn [dispatch_count]; lia | ].
  cbn [dispatch_count] in Hchain, Hlast.
  split; [ exact Hchain | ].
  split; [ exact Hlast | ].
  split; [ | split; [ | exact late_commit_example ] ].
  - eapply runs_all; [ | exact Hruns ].
    intros s v1 w2.
    destruct (iteration_events rt inst camera s v1 w2) as (tail & H1 & H2 & H3 & _).
    exists tail. auto.
  - intros l1 l2 it l3 Hsplit Hl1 Hno.
    rewrite Hsplit in Hchain. apply chain_app in Hchain.
    assert (Hzero : counter_after 0 l1 = 0).
    { destruct Hl1 as [ -> | (l & previous & -> & Hprev) ]; [ reflexivity | ].
      apply counter_after_commit, Hprev. }
    rewrite Hzero in Hchain.
    exact (chain_uncommitted 0 l2 it l3 Hchain Hno).
Qed.

End Commits.

(** ** The properties at work on scripted runs *)

Lemma closes_at_stays (t : nat) : close_request_stays (scripted (closes_at t)).
Proof.
  intros w Hw. cbn in *. apply Nat.leb_le in Hw.
  split; intros _; apply Nat.leb_le; lia.
Qed.

Lemma render_one_camera_dispatches_witness :
  let r := ProgressiveIntegrator._render_one_camera (scripted quiet)
             (session quiet [] scene_4x4) camera_4x4 0%nat in
  dispatched (log r) = seqZ 0 4
  /\ Z.of_nat (length (dispatched (log r))) = 4
  /\ frames (iterations r) = seqZ 0 4
  /\ ProgressiveIntegrator.sample_id (value r).1 = 4.
Proof.
  apply (render_one_camera_dispatches (scripted quiet)
           (session quiet [] scene_4x4) camera_4x4 0%nat).
  - repeat constructor. cbn. lia.
  - reflexivity.
  - reflexivity.
Defined.

Lemma commit_cadence_witness :
  Forall (fun it => ProgressiveIntegrator.cadence (ProgressiveIntegrator.locals it) = 32)
         (late_iteration 73 :: drop 74 (iterations late_run))
  /\ Forall (fun it => ProgressiveIntegrator.cadence (ProgressiveIntegrator.locals it)
                       = ProgressiveIntegrator.display_interval
                           (ProgressiveIntegrator.node paced_session))
            (iterations paced_run)
  /\ ProgressiveIntegrator.display_interval (ProgressiveIntegrator.node paced_session) = 2.
Proof.
  split; [ | split ].
  - destruct (commit_cadence (scripted late_close) late_session (camera_of 110) 0%nat)
      as (_ & _ & _ & _ & _ & Hstays).
    apply (Hstays (closes_at_stays 233) (take 73 (iterations late_run))).
    + vm_compute. reflexivity.
    + vm_compute. reflexivity.
  - destruct (commit_cadence (scripted quiet) paced_session camera_4x4 0%nat)
      as (_ & _ & _ & Hopen & _).
    apply Hopen.
    + eexists. reflexivity.
    + intros w0. reflexivity.
  - vm_compute. reflexivity.
Defined.

(** C2, as the claim words its second half, fails: the display of
    [reopened_run] asks to be closed in the first three runs of the loop
    body and no more afterwards, and the cadence of the fourth run is the
    display interval 3, not 32. *)
Lemma cadence_does_not_latch :
  ~ cadence_latches (scripted reopens) reopened_session (camera_of 8) 0%nat.
Proof.
  intros Hlatch.
  pose proof (Hlatch [] (nth 0 (iterations reopened_run) (late_iteration 0))
                (drop 1 (iterations reopened_run))) as Hafter.
  assert (Hall : Forall (fun it' => ProgressiveIntegrator.cadence
                                      (ProgressiveIntegrator.locals it') = 32)
                   (drop 1 (iterations reopened_run))).
  { apply Hafter.
    - vm_compute. reflexivity.
    - vm_compute. do 2 apply list_elem_of_further. apply list_elem_of_here. }
  assert (Hthird : drop 1 (iterations reopened_run) !! 2%nat
                   = Some (nth 3 (iterations reopened_run) (late_iteration 0)))
    by (vm_compute; reflexivity).
  pose proof (proj1 (Forall_lookup _ _) Hall _ _ Hthird) as Hcadence.
  vm_compute in Hcadence. discriminate.
Qed.

Lemma drain_polls_while_idle_witness :
  ProgressiveIntegrator.drain (scripted idle_twice) 5 (display_session idle_twice) 0%nat
  = make_run true (idle_world (scripted idle_twice) 3 0%nat)
      (repeat (Asked DisplayIdle true) 2 ++ [Asked DisplayIdle false]).
Proof.
  destruct (drain_polls_while_idle (scripted idle_twice) (display_session idle_twice) 0%nat)
    as (_ & _ & Hexit & _).
  apply Hexit.
  - eexists. reflexivity.
  - intros [ | [ | k ] ] Hk; [ reflexivity | reflexivity | lia ].
  - reflexivity.
  - lia.
Defined.

(** C3, as the specification words it, fails: with a display whose [idle]
    answers yes twice and then no, the code calls [idle] three times, and a
    loop that goes on while the display is not idle calls it once. *)
Lemma drain_is_not_while_not_idle :
  ~ drains_while_not_idle (scripted idle_twice) 5 (display_session idle_twice) 0%nat.
Proof.
  unfold drains_while_not_idle. vm_compute. discriminate.
Qed.

Lemma sampler_reset_before_dispatch_witness :
  exists segments,
    log (ProgressiveIntegrator.render (scripted quiet) 3 (display_session quiet) 0%nat)
    = concat segments
    /\ length segments = 1%nat.
Proof.
  destruct (sampler_reset_before_dispatch (scripted quiet) (display_session quiet) 3 0%nat)
    as (_ & segments & Hlog & _ & Hlength).
  exists segments. split; [ exact Hlog | ].
  apply Hlength. vm_compute. reflexivity.
Defined.

Lemma commit_at_multiples_of_cadence_witness :
  ProgressiveIntegrator.counter (ProgressiveIntegrator.locals (late_iteration 103)) = 63 + 1
  /\ (ProgressiveIntegrator.committed (ProgressiveIntegrator.locals (late_iteration 103)) = true
      <-> (63 + 1) mod ProgressiveIntegrator.cadence
                         (ProgressiveIntegrator.locals (late_iteration 103)) = 0).
Proof.
  destruct (commit_at_multiples_of_cadence (scripted late_close)
              (description [("display", PBool true); ("display_interval", PUInt 40)])
              late_pipeline 0%nat (camera_of 110) 0%nat)
    as (_ & _ & _ & Hnext & _).
  apply (Hnext (take 40 (iterations late_run)) (take 63 (drop 40 (iterations late_run)))
           (late_iteration 103) (drop 104 (iterations late_run))).
  - vm_compute. reflexivity.
  - right. exists (take 39 (iterations late_run)), (late_iteration 39).
    split; vm_compute; reflexivity.
  - vm_compute. repeat constructor.
Defined.

(** ** The scenarios of the specification *)

(** Resolution 4x4, 4 spp, one shutter sample of 4 sub-samples: four
    dispatches with the sample indices 0, 1, 2, 3, and a download of 16
    pixels. *)
Example scenario_4x4 :
  dispatched (log (ProgressiveIntegrator._render_one_camera (scripted quiet)
                     (session quiet [] scene_4x4) camera_4x4 0%nat))
  = [0; 1; 2; 3]
  /\ Did (FilmDownload camera_4x4 16)
     ∈ log (ProgressiveIntegrator.render (scripted quiet) 1
              (session quiet [] scene_4x4) 0%nat).
Proof.
  split; [ vm_compute; reflexivity | ].
  vm_compute. repeat first [ apply list_elem_of_here | apply list_elem_of_further ].
Qed.

(** No display and a display interval of 5: the cadence is 32 in every run. *)
Example scenario_no_display :
  map (fun it => ProgressiveIntegrator.cadence (ProgressiveIntegrator.locals it))
      (iterations (ProgressiveIntegrator._render_one_camera (scripted quiet)
                     (session quiet [("display_interval", PUInt 5)] scene_4x4)
                     camera_4x4 0%nat))
  = [32; 32; 32; 32].
Proof. vm_compute. reflexivity. Qed.

(** A display that is never closed and a display interval of 5: the cadence
    is 5 in every run. *)
Example scenario_display_open :
  map (fun it => ProgressiveIntegrator.cadence (ProgressiveIntegrator.locals it))
      (iterations (ProgressiveIntegrator._render_one_camera (scripted quiet)
                     (session quiet [("display", PBool true);
                                     ("display_interval", PUInt 5)] scene_4x4)
                     camera_4x4 0%nat))
  = [5; 5; 5; 5].
Proof. vm_compute. reflexivity. Qed.

(** * More of the driver *)

(** ** The events of a run of the loop body, in full *)

Section Exact.

Import ProgressiveIntegrator.

Context {F World : Type} (rt : Runtime F World).

Lemma commit_if_run fired inst spp id w :
  log (commit_if rt fired inst spp id w) =
  if fired
  then
    let p := progress_ratio id spp in
    match _display inst with
    | Some _ =>
        [ Asked (DisplayUpdate id) (rt_ask rt (DisplayUpdate id) w).1;
          Did (if (rt_ask rt (DisplayUpdate id) w).1
               then ProgressUpdate p else DeferredProgressUpdate p) ]
    | None => [ Did (DeferredProgressUpdate p) ]
    end
  else [].
Proof.
  unfold commit_if, commit. destruct fired; [ | reflexivity ].
  destruct (_display inst); [ | reflexivity ].
  rewrite run_bind. cbn [value world log ask].
  destruct (rt_ask rt (DisplayUpdate id) w).1; reflexivity.
Qed.

Lemma iteration_run_of inst camera s v w :
  run_of inst camera s (value (iteration rt inst camera s v w)).2.
Proof.
  rewrite iteration_unfold. cbv zeta. rewrite body_unfold. cbv zeta.
  cbn [value world log fst snd].
  set (w1 := rt_do rt _ w).
  rewrite printer_check_run. cbn [value world log].
  set (e := (rt_ask rt PrinterEmpty w1).1).
  set (w2 := if e then _ else _).
  rewrite dispatches_per_commit_run.
  split.
  - cbn [events locals].
    unfold body_events, close_part, commit_part.
    cbn [frame printer_empty should_close committed].
    rewrite commit_if_run. cbv zeta.
    destruct (_display inst) as [d|]; cbn [value world log fst snd].
    + eexists. destruct e; cbn [app];
        match goal with |- context [if ?c then _ else []] => destruct c end;
        reflexivity.
    + exists true. destruct e; cbn [app];
        match goal with |- context [if ?c then _ else []] => destruct c end;
        reflexivity.
  - cbn [locals should_close].
    destruct (_display inst); cbn [value fst]; split; intros H;
      try discriminate; reflexivity.
Qed.

Lemma sub_samples_run_of inst camera s n :
  forall v w,
    Forall (run_of inst camera s) (value (sub_samples rt inst camera s n v w)).2.
Proof.
  induction n as [ | n IH ]; intros v w.
  - constructor.
  - rewrite sub_samples_step. cbv zeta. cbn [value snd].
    constructor; [ apply iteration_run_of | apply IH ].
Qed.

Lemma shutter_loop_run_of inst camera samples :
  forall v w,
    Forall2 (fun s g => length g = Z.to_nat (spp s)
                        /\ Forall (run_of inst camera s) g)
            samples (value (shutter_loop rt inst camera samples v w)).2.
Proof.
  induction samples as [ | s rest IH ]; intros v w.
  - constructor.
  - rewrite shutter_loop_step. cbv zeta. cbn [value snd].
    constructor; [ | apply IH ].
    split; [ apply sub_samples_spec | apply sub_samples_run_of ].
Qed.

(** *** Reading the events of the loop with [omap] *)

Lemma omap_events_one {B} (g : Event F -> option B) (x : B) (l : list (Iteration F)) :
  Forall (fun it => omap g (events it) = [x]) l ->
  omap g (concat (map events l)) = replicate (length l) x.
Proof.
  induction 1 as [ | it l Hit _ IH ]; [ reflexivity | ].
  cbn [map concat length replicate]. rewrite omap_app, Hit, IH. reflexivity.
Qed.

Lemma omap_events_none {B} (g : Event F -> option B) (l : list (Iteration F)) :
  Forall (fun it => omap g (events it) = []) l ->
  omap g (concat (map events l)) = [].
Proof.
  induction 1 as [ | it l Hit _ IH ]; [ reflexivity | ].
  cbn [map concat]. rewrite omap_app, Hit, IH. reflexivity.
Qed.

Lemma omap_loop_events {B} (g : Event F -> option B) (h : ShutterSample F -> list B)
    samples (groups : list (list (Iteration F))) :
  Forall2 (fun s gr => omap g (Did (PipelineUpdate (time (point s)))
                               :: concat (map events gr)) = h s)
          samples groups ->
  omap g (loop_events samples groups) = flat_map h samples.
Proof.
  induction 1 as [ | s gr samples groups Hs _ IH ]; [ reflexivity | ].
  unfold loop_events in *. cbn [zip_with concat flat_map].
  rewrite omap_app, IH, <- Hs. reflexivity.
Qed.

End Exact.

(** ** What is dispatched, whatever the spp *)

Section Schedule.

Import ProgressiveIntegrator.

Context {F World : Type} (rt : Runtime F World).

Lemma to_uint_succ (a : Z) : to_uint (to_uint a + 1) = to_uint (a + 1).
Proof. unfold to_uint. apply Zplus_mod_idemp_l. Qed.

Lemma runs_frames_modulo inst camera v w l v' w' :
  runs rt inst camera v w l v' w' ->
  forall a, sample_id v = to_uint a ->
    frames l = map to_uint (seqZ a (Z.of_nat (length l)))
    /\ sample_id v' = to_uint (a + Z.of_nat (length l)).
Proof.
  induction 1 as [ v w | t v w l v' w' _ IH | s v w l v' w' _ IH ]; intros a Ha.
  - cbn. rewrite Z.add_0_r. auto.
  - apply IH, Ha.
  - destruct (iteration_sample_id rt inst camera s v w) as (Hframe & Hnext).
    destruct (IH (a + 1)) as (IHf & IHs).
    { rewrite Hnext, Ha. apply to_uint_succ. }
    cbn [length]. rewrite Nat2Z.inj_succ. split.
    + unfold frames in *. cbn [map]. rewrite Hframe, IHf, Ha.
      rewrite (seqZ_cons a) by lia. cbn [map].
      rewrite Z.pred_succ. reflexivity.
    + rewrite IHs. f_equal. lia.
Qed.

Lemma length_groups (samples : list (ShutterSample F))
    (groups : list (list (Iteration F))) :
  Forall2 (fun s g => length g = Z.to_nat (spp s)) samples groups ->
  length (concat groups) = sub_sample_count samples.
Proof.
  induction 1 as [ | s g samples groups Hg _ IH ]; [ reflexivity | ].
  unfold sub_sample_count in *. cbn [concat map sum_list sum_list_with].
  rewrite length_app, Hg, IH. reflexivity.
Qed.

(** X1: the sample indices as the code counts them: the [k]-th dispatch of a
    camera carries [k] modulo 2^32, there are as many dispatches as the
    shutter samples have sub-samples, and the spp of the camera has no part
    in either. *)
Theorem sample_indices_modulo inst (camera : Camera F) (w : World) :
  let r := _render_one_camera rt inst camera w in
  let n := sub_sample_count (camera_shutter_samples camera) in
  dispatched (log r) = map to_uint (seqZ 0 (Z.of_nat n))
  /\ length (dispatched (log r)) = n
  /\ sample_id (value r).1 = to_uint (Z.of_nat n).
Proof.
  cbv zeta. rewrite render_one_camera_unfold. cbv zeta. cbn [value world log].
  set (w0 := after rt (prologue camera) w).
  destruct (shutter_loop_spec rt inst camera (camera_shutter_samples camera)
              {| dispatch_count := 0; sample_id := 0 |} w0)
    as (Hruns & Hlog & Hlen).
  set (r := shutter_loop rt inst camera _ _ w0) in *.
  pose proof (length_groups _ _ Hlen) as Hcount.
  destruct (runs_frames_modulo _ _ _ _ _ _ _ Hruns 0 eq_refl) as (Hframes & Hlast).
  rewrite Hcount in Hframes, Hlast.
  assert (Hd : dispatched (map Did (prologue camera) ++ log r ++ map Did epilogue)
               = map to_uint (seqZ 0 (Z.of_nat (sub_sample_count
                                                  (camera_shutter_samples camera))))).
  { rewrite !dispatched_app, Hlog.
    change (dispatched (map Did (prologue camera))) with (@nil Z).
    change (dispatched (map Did epilogue)) with (@nil Z).
    rewrite (dispatched_loop_events camera)
      by exact (iteration_shape_all rt _ _ _ _ _ _ _ Hruns).
    rewrite (Forall2_length _ _ _ Hlen), firstn_all, app_nil_r. exact Hframes. }
  split; [ exact Hd | split; [ | exact Hlast ] ].
  rewrite Hd, length_map, length_seqZ. apply Nat2Z.id.
Qed.

Lemma schedule_body inst camera (s : ShutterSample F) (n : Locals) taken :
  schedule (body_events inst camera s n taken)
  = [Dispatched (time (point s)) (weight (point s))].
Proof.
  unfold body_events, close_part, commit_part.
  destruct n as [fr pe sc cad cnt com]. cbn [frame printer_empty should_close committed].
  destruct pe, sc as [ [ | ] | ], com, (_display inst), taken; reflexivity.
Qed.

(** X2: the single-camera function updates the pipeline once per shutter
    sample, in the order of the samples and also for a sample without
    sub-samples, and after each update it dispatches once per sub-sample
    with the time and the weight of that sample. *)
Theorem schedule_follows_shutter_samples inst (camera : Camera F) (w : World) :
  schedule (log (_render_one_camera rt inst camera w))
  = planned (camera_shutter_samples camera).
Proof.
  rewrite render_one_camera_unfold. cbv zeta. cbn [log].
  set (w0 := after rt (prologue camera) w).
  destruct (shutter_loop_spec rt inst camera (camera_shutter_samples camera)
              {| dispatch_count := 0; sample_id := 0 |} w0) as (_ & Hlog & _).
  pose proof (shutter_loop_run_of rt inst camera (camera_shutter_samples camera)
                {| dispatch_count := 0; sample_id := 0 |} w0) as Hexact.
  unfold schedule at 1. rewrite !omap_app, Hlog.
  change (omap _ (map Did (prologue camera))) with (@nil (Step F)).
  change (omap _ (map Did epilogue)) with (@nil (Step F)).
  rewrite app_nil_r. cbn [app]. unfold planned.
  apply omap_loop_events.
  eapply Forall2_impl; [ exact Hexact | ].
  intros s g (Hlen & Hruns). cbn [omap list_omap]. f_equal.
  rewrite <- Hlen. apply omap_events_one.
  eapply Forall_impl; [ exact Hruns | ].
  intros it ((taken & ->) & _). apply schedule_body.
Qed.

End Schedule.

(** ** The events of the loop, the reports and the barriers *)

Section Reports.

Import ProgressiveIntegrator.

Context {F World : Type} (rt : Runtime F World).

(** X3: every run of the loop body sends, in this order: the dispatch, the
    emptiness check of the printer, the retrieval when it was not empty, the
    question [should_close] when there is a display, and on a commit, with
    a display, [Display::update] for the incremented sample index followed
    by the progress update, at once when the display took the data and
    deferred otherwise; without a display a commit sends the deferred
    update alone.  The log of the single-camera function is the prologue,
    these events after the update of each shutter sample, and the epilogue. *)
Theorem loop_body_events_in_full inst (camera : Camera F) (w : World) :
  let r := _render_one_camera rt inst camera w in
  log r = map Did (prologue camera)
          ++ loop_events (camera_shutter_samples camera) (value r).2
          ++ map Did epilogue
  /\ Forall2 (fun s g => length g = Z.to_nat (spp s)
                         /\ Forall (run_of inst camera s) g)
             (camera_shutter_samples camera) (value r).2.
Proof.
  cbv zeta. rewrite render_one_camera_unfold. cbv zeta. cbn [value log].
  set (w0 := after rt (prologue camera) w).
  destruct (shutter_loop_spec rt inst camera (camera_shutter_samples camera)
              {| dispatch_count := 0; sample_id := 0 |} w0) as (_ & Hlog & _).
  split; [ rewrite Hlog; reflexivity | apply shutter_loop_run_of ].
Qed.

Lemma omap_events_each {B} (g : Event F -> option B) (h : Iteration F -> list B)
    (l : list (Iteration F)) :
  Forall (fun it => omap g (events it) = h it) l ->
  omap g (concat (map events l)) = concat (map h l).
Proof.
  induction 1 as [ | it l Hit _ IH ]; [ reflexivity | ].
  cbn [map concat]. rewrite omap_app, Hit, IH. reflexivity.
Qed.

Lemma omap_loop_events_each {B} (g : Event F -> option B) (h : Iteration F -> list B)
    (samples : list (ShutterSample F)) (groups : list (list (Iteration F))) :
  (forall t, g (Did (PipelineUpdate t)) = None) ->
  Forall2 (fun s gr => Forall (fun it => omap g (events it) = h it) gr)
          samples groups ->
  omap g (loop_events samples groups) = concat (map h (concat groups)).
Proof.
  intros Hupdate. induction 1 as [ | s gr samples groups Hgr _ IH ]; [ reflexivity | ].
  unfold loop_events in *. cbn [zip_with concat].
  rewrite omap_app, IH, map_app, concat_app.
  cbn [omap list_omap]. rewrite Hupdate, (omap_events_each g h gr Hgr).
  reflexivity.
Qed.

Lemma run_of_each inst camera (samples : list (ShutterSample F))
    (groups : list (list (Iteration F))) (P : Iteration F -> Prop) :
  (forall s it, run_of inst camera s it -> P it) ->
  Forall2 (fun s g => length g = Z.to_nat (spp s)
                      /\ Forall (run_of inst camera s) g) samples groups ->
  Forall2 (fun (s : ShutterSample F) gr => Forall P gr) samples groups.
Proof.
  intros HP Hall. eapply Forall2_impl; [ exact Hall | ].
  intros s g (_ & Hg). eapply Forall_impl; [ exact Hg | ].
  intros it. apply HP.
Qed.

Lemma reports_body inst (camera : Camera F) (s : ShutterSample F) (n : Locals) taken :
  reports (body_events inst camera s n taken)
  = if committed n then [(to_uint (frame n + 1), camera_spp camera)] else [].
Proof.
  unfold body_events, close_part, commit_part.
  destruct n as [fr pe sc cad cnt com]. cbn [frame printer_empty should_close committed].
  destruct pe, sc as [ [ | ] | ], com, (_display inst), taken; reflexivity.
Qed.

Lemma concat_map_if {A B} (c : A -> bool) (f : A -> B) (l : list A) :
  concat (map (fun a => if c a then [f a] else []) l) = map f (List.filter c l).
Proof.
  induction l as [ | a l IH ]; [ reflexivity | ].
  cbn [map concat List.filter]. rewrite IH. destruct (c a); reflexivity.
Qed.

(** X4: every commit reports progress exactly once and nothing else does: the
    progress ratios reported in the loop of a camera are, in order, those of
    the runs that committed, each the sample index after the increment over
    the spp of the camera. *)
Theorem one_report_per_commit inst (camera : Camera F) (w : World) :
  let r := _render_one_camera rt inst camera w in
  reports (log r)
  = map (fun it => (to_uint (frame (locals it) + 1), camera_spp camera))
        (commits (iterations r)).
Proof.
  cbv zeta. unfold iterations, commits.
  rewrite render_one_camera_unfold. cbv zeta. cbn [value log].
  set (w0 := after rt (prologue camera) w).
  destruct (shutter_loop_spec rt inst camera (camera_shutter_samples camera)
              {| dispatch_count := 0; sample_id := 0 |} w0) as (_ & Hlog & _).
  pose proof (shutter_loop_run_of rt inst camera (camera_shutter_samples camera)
                {| dispatch_count := 0; sample_id := 0 |} w0) as Hexact.
  unfold reports at 1. rewrite !omap_app, Hlog.
  change (omap _ (map Did (prologue camera))) with (@nil (Z * Z)).
  change (omap _ (map Did epilogue)) with (@nil (Z * Z)).
  rewrite app_nil_r. cbn [app].
  rewrite <- concat_map_if.
  apply omap_loop_events_each; [ reflexivity | ].
  eapply run_of_each; [ | exact Hexact ].
  intros s it ((taken & ->) & _). apply reports_body.
Qed.

Lemma barriers_body inst (camera : Camera F) (s : ShutterSample F) (n : Locals) taken :
  omap (fun e : Event F =>
          match e with
          | Did Synchronize | Did (Compile _) | Did (SamplerReset _ _ _)
          | Did PrinterReset => Some e
          | _ => None
          end) (body_events inst camera s n taken) = [].
Proof.
  unfold body_events, close_part, commit_part.
  destruct n as [fr pe sc cad cnt com]. cbn [frame printer_empty should_close committed].
  destruct pe, sc as [ [ | ] | ], com, (_display inst), taken; reflexivity.
Qed.

Lemma concat_map_nil {A B} (l : list A) :
  concat (map (fun _ : A => @nil B) l) = [].
Proof. induction l as [ | a l IH ]; [ reflexivity | exact IH ]. Qed.

(** X5: however many dispatches a camera takes, the single-camera function
    synchronizes three times (twice before the loop, once after it),
    compiles the kernel once, resets the sampler once and the printer once:
    the loop itself sends none of these. *)
Theorem loop_never_blocks inst (camera : Camera F) (w : World) :
  omap (fun e : Event F =>
          match e with
          | Did Synchronize | Did (Compile _) | Did (SamplerReset _ _ _)
          | Did PrinterReset => Some e
          | _ => None
          end) (log (_render_one_camera rt inst camera w))
  = [ Did (SamplerReset (camera_resolution camera)
             (to_uint (x (camera_resolution camera) * y (camera_resolution camera)))
             (camera_spp camera));
      Did PrinterReset; Did Synchronize; Did (Compile camera); Did Synchronize;
      Did Synchronize ].
Proof.
  rewrite render_one_camera_unfold. cbv zeta. cbn [log].
  set (w0 := after rt (prologue camera) w).
  destruct (shutter_loop_spec rt inst camera (camera_shutter_samples camera)
              {| dispatch_count := 0; sample_id := 0 |} w0) as (_ & Hlog & _).
  pose proof (shutter_loop_run_of rt inst camera (camera_shutter_samples camera)
                {| dispatch_count := 0; sample_id := 0 |} w0) as Hexact.
  rewrite !omap_app, Hlog.
  rewrite (omap_loop_events_each _ (fun _ => []));
    [ rewrite concat_map_nil; reflexivity | reflexivity | ].
  eapply run_of_each; [ | exact Hexact ].
  intros s it ((taken & ->) & _). apply barriers_body.
Qed.

End Reports.

(** ** How far apart the commits are *)

Section Staleness.

Import ProgressiveIntegrator.

Context {F World : Type} (rt : Runtime F World).

Lemma chain_bound (interval c : Z) (l : list (Iteration F)) :
  1 <= interval ->
  commit_chain c l ->
  Forall (fun it => cadence (locals it) = 32 \/ cadence (locals it) = interval) l ->
  0 <= c < 32 * interval ->
  Forall (fun it => 1 <= counter (locals it) <= 32 * interval
                    /\ (committed (locals it) = false ->
                        counter (locals it) < 32 * interval)) l
  /\ 0 <= counter_after c l < 32 * interval.
Proof.
  intros Hinterval. revert c.
  induction l as [ | it l IH ]; intros c Hchain Hcad Hc.
  - cbn. auto.
  - cbn [commit_chain] in Hchain. destruct Hchain as (Hcount & Hiff & Hrest).
    apply Forall_cons in Hcad as (Hit & Hcad).
    assert (Hlt : committed (locals it) = false ->
                  counter (locals it) < 32 * interval).
    { intros Hno. rewrite Hcount.
      destruct (Z.eq_dec (c + 1) (32 * interval)) as [ Heq | Hne ]; [ | lia ].
      assert (committed (locals it) = true); [ | congruence ].
      apply Hiff. rewrite Heq. destruct Hit as [ -> | -> ].
      - rewrite Z.mul_comm. apply Z.mod_mul. lia.
      - apply Z.mod_mul. lia. }
    cbn [counter_after].
    destruct (IH (if committed (locals it) then 0 else c + 1) Hrest Hcad)
      as (IHall & IHafter).
    { destruct (committed (locals it)); [ lia | ].
      specialize (Hlt eq_refl). lia. }
    split.
    + constructor; [ | exact IHall ]. split; [ lia | exact Hlt ].
    + rewrite Hcount. exact IHafter.
Qed.

Lemma chain_prefix c (l1 l : list (Iteration F)) :
  commit_chain c (l1 ++ l) -> commit_chain c l1.
Proof.
  revert c. induction l1 as [ | it l1 IH ]; intros c; [ cbn; trivial | ].
  cbn [app commit_chain]. intros (H1 & H2 & H3). auto.
Qed.

Lemma runs_cadence_values inst camera v w l v' w' :
  runs rt inst camera v w l v' w' ->
  Forall (fun it => cadence (locals it) = 32
                    \/ cadence (locals it) = display_interval (node inst)) l.
Proof.
  apply runs_all. intros s v0 w0.
  destruct (iteration_cadence rt inst camera s v0 w0) as (-> & _).
  apply cadence_for_values.
Qed.

Lemma session_runs (desc : SceneNodeDesc.t) (p : Pipeline F) (w0 : World)
    (camera : Camera F) (w : World) :
  let inst := value (Instance_new rt p (ProgressiveIntegrator.new desc) w0) in
  let r := _render_one_camera rt inst camera w in
  1 <= display_interval (node inst) <= 65535
  /\ commit_chain 0 (iterations r)
  /\ Forall (fun it => cadence (locals it) = 32
                       \/ cadence (locals it) = display_interval (node inst))
            (iterations r).
Proof.
  cbv zeta.
  set (inst := value (Instance_new rt p (ProgressiveIntegrator.new desc) w0)).
  assert (Hinterval : 1 <= display_interval (node inst) <= 65535)
    by exact (display_interval_range desc).
  unfold iterations. rewrite render_one_camera_unfold. cbv zeta. cbn [value].
  destruct (shutter_loop_spec rt inst camera (camera_shutter_samples camera)
              {| dispatch_count := 0; sample_id := 0 |}
              (after rt (prologue camera) w)) as (Hruns & _ & _).
  destruct (runs_chain rt inst camera _ _ _ _ _ Hinterval Hruns)
    as (Hchain & _ & _); [ cbn [dispatch_count]; lia | ].
  split; [ exact Hinterval | split; [ exact Hchain | ] ].
  exact (runs_cadence_values _ _ _ _ _ _ _ Hruns).
Qed.

(** X6: in a session made from a description, the dispatch counter of a camera
    stays between 1 and 32 times the display interval after the increment,
    and so never wraps; and however the display changes its mind about
    closing, fewer than 32 times the display interval runs of the loop body
    in a row go without a commit. *)
Theorem commits_never_far_apart (desc : SceneNodeDesc.t) (p : Pipeline F)
    (w0 : World) (camera : Camera F) (w : World) :
  let inst := value (Instance_new rt p (ProgressiveIntegrator.new desc) w0) in
  let r := _render_one_camera rt inst camera w in
  let bound := 32 * display_interval (node inst) in
  bound < uint_modulus
  /\ Forall (fun it => 1 <= counter (locals it) <= bound) (iterations r)
  /\ (forall l1 l2 l3,
        iterations r = l1 ++ l2 ++ l3 ->
        uncommitted l2 ->
        Z.of_nat (length l2) < bound).
Proof.
  cbv zeta.
  destruct (session_runs desc p w0 camera w) as (Hinterval & Hchain & Hcad).
  set (inst := value (Instance_new rt p (ProgressiveIntegrator.new desc) w0)) in *.
  set (r := _render_one_camera rt inst camera w) in *.
  destruct (chain_bound (display_interval (node inst)) 0 (iterations r))
    as (Hall & _); [ lia | exact Hchain | exact Hcad | lia | ].
  split; [ unfold uint_modulus; change (2 ^ 32) with 4294967296; lia | ].
  split.
  { eapply Forall_impl; [ exact Hall | ]. intros it (H & _). exact H. }
  intros l1 l2 l3 Hsplit Hno.
  destruct l2 as [ | it2 l2' _ ] using rev_ind; [ cbn; lia | ].
  rewrite Hsplit in Hchain, Hcad, Hall.
  pose proof (chain_prefix _ _ _ Hchain) as Hchain1.
  apply chain_app in Hchain.
  apply Forall_app in Hcad as (Hcad1 & _).
  destruct (chain_bound (display_interval (node inst)) 0 l1) as (_ & Hstart);
    [ lia | exact Hchain1 | exact Hcad1 | lia | ].
  apply Forall_app in Hno as (Hno & Hlast). apply Forall_cons in Hlast as (Hlast & _).
  rewrite <- app_assoc in Hchain. cbn [app] in Hchain.
  destruct (chain_uncommitted (counter_after 0 l1) l2' it2 l3 Hchain Hno)
    as (Hcount & _).
  apply Forall_app in Hall as (_ & Hall).
  apply Forall_app in Hall as (Hall & _).
  apply Forall_app in Hall as (_ & Hall).
  apply Forall_cons in Hall as ((_ & Hlt) & _).
  specialize (Hlt Hlast).
  rewrite length_app. cbn [length]. lia.
Qed.

Lemma chain_constant (cad : Z) (l : list (Iteration F)) :
  1 <= cad ->
  Forall (fun it => cadence (locals it) = cad) l ->
  forall c k0,
    commit_chain c l -> 0 <= k0 -> c = k0 mod cad ->
    forall k it, l !! k = Some it ->
      counter (locals it) = (k0 + Z.of_nat k) mod cad + 1
      /\ (committed (locals it) = true <-> (k0 + Z.of_nat k + 1) mod cad = 0).
Proof.
  intros Hcad. induction 1 as [ | it0 l Hit0 _ IH ]; intros c k0 Hchain Hk0 Hc k it Hk.
  - discriminate.
  - cbn [commit_chain] in Hchain. destruct Hchain as (Hcount & Hiff & Hrest).
    rewrite Hit0 in Hiff.
    assert (Hrange : 0 <= c < cad) by (subst c; apply Z.mod_pos_bound; lia).
    assert (Hmod : (k0 + 1) mod cad = (c + 1) mod cad).
    { subst c. symmetry. apply Zplus_mod_idemp_l. }
    destruct k as [ | k ].
    + injection Hk as <-. rewrite Z.add_0_r, <- Hc, Hmod. auto.
    + cbn [lookup list_lookup] in Hk.
      destruct (IH (if committed (locals it0) then 0 else c + 1) (k0 + 1) Hrest)
        with (k := k) (it := it) as (IHc & IHiff); [ lia | | exact Hk | ].
      { rewrite Hmod. destruct (committed (locals it0)) eqn:Hcom.
        - symmetry. apply Hiff. reflexivity.
        - symmetry. apply Z.mod_small.
          assert (c + 1 <> cad); [ | lia ].
          intros Heq. assert (false = true); [ | discriminate ].
          apply Hiff. rewrite Heq. apply Z.mod_same. lia. }
      rewrite Nat2Z.inj_succ.
      replace (k0 + Z.succ (Z.of_nat k)) with (k0 + 1 + Z.of_nat k) by lia.
      auto.
Qed.

(** X7: as long as the cadence is the same in all the runs of the loop body
    for a camera (no display, or a display that never asks to be closed, or
    one that asked before the first dispatch), the commits are exactly at
    the dispatches whose number, counted from 1, is a multiple of the
    cadence. *)
Theorem commits_at_constant_cadence (desc : SceneNodeDesc.t) (p : Pipeline F)
    (w0 : World) (camera : Camera F) (w : World) (cad : Z) :
  let inst := value (Instance_new rt p (ProgressiveIntegrator.new desc) w0) in
  let r := _render_one_camera rt inst camera w in
  Forall (fun it => cadence (locals it) = cad) (iterations r) ->
  forall k it,
    iterations r !! k = Some it ->
    (committed (locals it) = true <-> (Z.of_nat k + 1) mod cad = 0).
Proof.
  cbv zeta. intros Hconstant k it Hk.
  destruct (session_runs desc p w0 camera w) as (Hinterval & Hchain & Hcad).
  assert (Hpos : 1 <= cad).
  { pose proof (proj1 (Forall_lookup _ _) Hcad k it Hk) as Hvalue.
    pose proof (proj1 (Forall_lookup _ _) Hconstant k it Hk) as Heq.
    cbv beta in Hvalue, Heq. lia. }
  destruct (chain_constant cad _ Hpos Hconstant 0 0 Hchain) with (k := k) (it := it)
    as (_ & Hiff); [ lia | | exact Hk | ].
  { symmetry. apply Z.mod_0_l. lia. }
  exact Hiff.
Qed.

End Staleness.

(** ** The cameras in turn *)

Section Turns.

Import ProgressiveIntegrator.

Context {F World : Type} (rt : Runtime F World).

Lemma omap_render_one_camera {B} (g : Event F -> option B)
    (h : Iteration F -> list B) inst (camera : Camera F) (w : World) :
  (forall t, g (Did (PipelineUpdate t)) = None) ->
  (forall s it, run_of inst camera s it -> omap g (events it) = h it) ->
  omap g (log (_render_one_camera rt inst camera w))
  = omap g (map Did (prologue camera))
    ++ concat (map h (iterations (_render_one_camera rt inst camera w)))
    ++ omap g (map Did epilogue).
Proof.
  intros Hupdate Hbody. unfold iterations.
  rewrite render_one_camera_unfold. cbv zeta. cbn [value log].
  set (w0 := after rt (prologue camera) w).
  destruct (shutter_loop_spec rt inst camera (camera_shutter_samples camera)
              {| dispatch_count := 0; sample_id := 0 |} w0) as (_ & Hlog & _).
  pose proof (shutter_loop_run_of rt inst camera (camera_shutter_samples camera)
                {| dispatch_count := 0; sample_id := 0 |} w0) as Hexact.
  rewrite !omap_app, Hlog. f_equal. f_equal.
  apply omap_loop_events_each; [ exact Hupdate | ].
  eapply run_of_each; [ exact Hbody | exact Hexact ].
Qed.

Lemma iterations_length inst (camera : Camera F) (w : World) :
  length (iterations (_render_one_camera rt inst camera w))
  = sub_sample_count (camera_shutter_samples camera).
Proof.
  unfold iterations. rewrite render_one_camera_unfold. cbv zeta. cbn [value].
  apply length_groups. apply shutter_loop_spec.
Qed.

Lemma turns_body inst (camera : Camera F) (s : ShutterSample F) (n : Locals) taken :
  turns (body_events inst camera s n taken) = [Dispatching camera].
Proof.
  unfold body_events, close_part, commit_part.
  destruct n as [fr pe sc cad cnt com]. cbn [frame printer_empty should_close committed].
  destruct pe, sc as [ [ | ] | ], com, (_display inst), taken; reflexivity.
Qed.

Lemma concat_map_one {A B} (b : B) (l : list A) :
  concat (map (fun _ : A => [b]) l) = replicate (length l) b.
Proof.
  induction l as [ | a l IH ]; [ reflexivity | ].
  cbn [map concat length replicate app]. rewrite IH. reflexivity.
Qed.

Lemma turns_render_one_camera inst (camera : Camera F) (w : World) :
  turns (log (_render_one_camera rt inst camera w)) = rendering camera.
Proof.
  unfold turns.
  rewrite (omap_render_one_camera _ (fun _ => [Dispatching camera]));
    [ | reflexivity | ].
  - change (omap _ (map Did (prologue camera))) with (@nil (Turn F)).
    change (omap _ (map Did epilogue)) with (@nil (Turn F)).
    rewrite app_nil_r. cbn [app].
    rewrite concat_map_one, iterations_length. reflexivity.
  - intros s it ((taken & ->) & _). apply turns_body.
Qed.

Lemma omap_drain {B} (g : Event F -> option B) fuel inst :
  (forall b, g (Asked DisplayIdle b) = None) ->
  forall w, omap g (log (drain rt fuel inst w)) = [].
Proof.
  intros Hidle. destruct (_display inst) as [d|] eqn:Hd.
  - induction fuel as [ | fuel IH ]; intros w.
    + cbn [drain]. rewrite Hd. reflexivity.
    + rewrite (drain_step rt fuel inst d w Hd).
      destruct (rt_ask rt DisplayIdle w).1; cbn [log omap list_omap];
        rewrite Hidle; [ apply IH | reflexivity ].
  - intros w. rewrite drain_without_display by exact Hd. reflexivity.
Qed.

Lemma turns_app (l l' : list (Event F)) : turns (l ++ l') = turns l ++ turns l'.
Proof. apply omap_app. Qed.

Lemma turns_drain fuel inst (w : World) :
  turns (log (drain rt fuel inst w)) = [].
Proof. unfold turns. apply omap_drain. reflexivity. Qed.

Lemma turns_preparation inst (camera : Camera F) :
  turns (map Did (preparation inst camera)) = [].
Proof. unfold preparation. destruct (_display inst); reflexivity. Qed.

Lemma render_cameras_turns fuel inst cams :
  forall w,
    let r := render_cameras rt fuel inst cams w in
    exists done pending,
      cams = done ++ pending
      /\ turns (log r)
         = flat_map (fun c => rendering c ++ output c) done
           ++ match pending with
              | c :: _ => rendering c
              | [] => []
              end
      /\ (value r = true <-> pending = []).
Proof.
  induction cams as [ | camera rest IH ]; intros w; cbv zeta.
  - exists [], []. cbn. tauto.
  - rewrite render_cameras_step. cbv zeta.
    set (r1 := _render_one_camera rt inst camera _).
    pose proof (turns_render_one_camera inst camera
                  (after rt (preparation inst camera) w)) as H1.
    fold r1 in H1.
    pose proof (turns_drain fuel inst (world r1)) as H2.
    set (r2 := drain rt fuel inst (world r1)) in *.
    destruct (value r2).
    + destruct (IH (after rt (readout camera) (world r2)))
        as (done & pending & Hcams & Hturns & Hvalue).
      exists (camera :: done), pending. cbn [value log].
      split; [ rewrite Hcams; reflexivity | ].
      split; [ | exact Hvalue ].
      rewrite !turns_app, turns_preparation, H1, H2, Hturns.
      cbn [flat_map app]. rewrite <- !app_assoc. reflexivity.
    + exists [], (camera :: rest). cbn [value log].
      split; [ reflexivity | ].
      split; [ | split; discriminate ].
      rewrite !turns_app, turns_preparation, H1, H2, app_nil_r. reflexivity.
Qed.

(** X8: [render] takes the cameras of the pipeline one after the other: for
    each camera as many dispatches of its kernel as its shutter samples have
    sub-samples, then the download of its film into a buffer of
    resolution.x * resolution.y pixels, then the saving under its file and
    resolution; no dispatch of a camera comes after its download or before
    the saving of the camera before it.  All the cameras are done exactly
    when [render] returns; otherwise the drain loop of one camera has not
    ended, and of that camera only the dispatches were sent. *)
Theorem cameras_in_turn inst (fuel : nat) (w : World) :
  let r := render rt fuel inst w in
  exists done pending,
    cameras (pipeline inst) = done ++ pending
    /\ turns (log r)
       = flat_map (fun c => rendering c ++ output c) done
         ++ match pending with
            | c :: _ => rendering c
            | [] => []
            end
    /\ (value r = true <-> pending = []).
Proof. unfold render. apply render_cameras_turns. Qed.

End Turns.

(** ** Rendering without a display, and waiting for one *)

Section Display.

Import ProgressiveIntegrator.

Context {F World : Type} (rt : Runtime F World).

Lemma render_cameras_omap_nil {B} (g : Event F -> option B) fuel inst :
  (forall c, omap g (map Did (preparation inst c)) = []) ->
  (forall c w, omap g (log (_render_one_camera rt inst c w)) = []) ->
  (forall w, omap g (log (drain rt fuel inst w)) = []) ->
  (forall c, omap g (map Did (readout c)) = []) ->
  forall cams w, omap g (log (render_cameras rt fuel inst cams w)) = [].
Proof.
  intros Hprep Hone Hdrain Hout.
  induction cams as [ | camera rest IH ]; intros w; [ reflexivity | ].
  rewrite render_cameras_step. cbv zeta.
  destruct (value (drain rt fuel inst _)); cbn [log];
    rewrite !omap_app, Hprep, Hone, Hdrain, ?Hout, ?IH; reflexivity.
Qed.

Lemma render_cameras_without_display fuel inst cams :
  _display inst = None ->
  forall w, value (render_cameras rt fuel inst cams w) = true.
Proof.
  intros Hd. induction cams as [ | camera rest IH ]; intros w; [ reflexivity | ].
  rewrite render_cameras_step. cbv zeta.
  rewrite drain_without_display by exact Hd. cbn [value]. apply IH.
Qed.

Lemma display_events_body inst (camera : Camera F) (s : ShutterSample F)
    (n : Locals) taken :
  _display inst = None -> should_close n = None ->
  display_events (body_events inst camera s n taken) = [].
Proof.
  intros Hd Hsc. unfold body_events, close_part, commit_part.
  rewrite Hd, Hsc. destruct (printer_empty n), (committed n); reflexivity.
Qed.

Lemma immediate_reports_body inst (camera : Camera F) (s : ShutterSample F)
    (n : Locals) taken :
  _display inst = None ->
  immediate_reports (body_events inst camera s n taken) = [].
Proof.
  intros Hd. unfold body_events, close_part, commit_part. rewrite Hd.
  destruct (printer_empty n), (should_close n) as [ [ | ] | ], (committed n);
    reflexivity.
Qed.

Lemma cadence_without_display inst camera v w l v' w' :
  _display inst = None ->
  runs rt inst camera v w l v' w' ->
  Forall (fun it => cadence (locals it) = 32) l.
Proof.
  intros Hd. apply runs_all. intros s v0 w0.
  destruct (iteration_cadence rt inst camera s v0 w0) as (-> & _).
  unfold cadence_for. rewrite Hd. reflexivity.
Qed.

(** X9: a session made from a description that gives no display: [render]
    returns for every camera list, it asks the display nothing and resets
    none, every progress ratio is reported through a deferred callback, and
    a camera commits exactly at every 32nd dispatch, whatever the display
    interval. *)
Theorem render_without_display (desc : SceneNodeDesc.t) (p : Pipeline F)
    (w0 : World) :
  let inst := value (Instance_new rt p (ProgressiveIntegrator.new desc) w0) in
  _display inst = None ->
  forall fuel w,
    let r := render rt fuel inst w in
    value r = true
    /\ display_events (log r) = []
    /\ immediate_reports (log r) = []
    /\ (forall camera w' k it,
          iterations (_render_one_camera rt inst camera w') !! k = Some it ->
          (committed (locals it) = true <-> (Z.of_nat k + 1) mod 32 = 0)).
Proof.
  cbv zeta.
  set (inst := value (Instance_new rt p (ProgressiveIntegrator.new desc) w0)).
  intros Hd fuel w. unfold render.
  split; [ apply render_cameras_without_display, Hd | ].
  split; [ | split ].
  - unfold display_events. apply render_cameras_omap_nil.
    + intros c. unfold preparation. rewrite Hd. reflexivity.
    + intros c w1.
      rewrite (omap_render_one_camera rt _ (fun _ => [])); [ | reflexivity | ].
      * rewrite concat_map_nil. reflexivity.
      * intros s it ((taken & ->) & Hnone).
        apply display_events_body; [ exact Hd | apply Hnone, Hd ].
    + intros w1. rewrite drain_without_display by exact Hd. reflexivity.
    + reflexivity.
  - unfold immediate_reports. apply render_cameras_omap_nil.
    + intros c. unfold preparation. rewrite Hd. reflexivity.
    + intros c w1.
      rewrite (omap_render_one_camera rt _ (fun _ => [])); [ | reflexivity | ].
      * rewrite concat_map_nil. reflexivity.
      * intros s it ((taken & ->) & _). apply immediate_reports_body, Hd.
    + intros w1. rewrite drain_without_display by exact Hd. reflexivity.
    + reflexivity.
  - intros camera w' k it Hk.
    destruct (session_runs rt desc p w0 camera w') as (_ & Hchain & _).
    fold inst in Hchain.
    assert (Hcad : Forall (fun it => cadence (locals it) = 32)
                     (iterations (_render_one_camera rt inst camera w'))).
    { unfold iterations. rewrite render_one_camera_unfold. cbv zeta. cbn [value].
      eapply cadence_without_display; [ exact Hd | apply shutter_loop_spec ]. }
    destruct (chain_constant 32 _ ltac:(lia) Hcad 0 0 Hchain) with (k := k) (it := it)
      as (_ & Hiff); [ lia | reflexivity | exact Hk | exact Hiff ].
Qed.

Lemma drain_ends inst fuel :
  forall w,
    (exists k, (k < fuel)%nat /\ idle_answer rt k w = false) ->
    value (drain rt fuel inst w) = true.
Proof.
  destruct (_display inst) as [d|] eqn:Hd.
  - induction fuel as [ | fuel IH ]; intros w (k & Hk & Hno); [ lia | ].
    rewrite (drain_step rt fuel inst d w Hd).
    destruct (rt_ask rt DisplayIdle w).1 eqn:Hfirst; [ | reflexivity ].
    cbn [value]. apply IH.
    destruct k as [ | k ].
    + rewrite idle_answer_first in Hno. congruence.
    + exists k. split; [ lia | ].
      unfold idle_answer in *. rewrite idle_world_succ in Hno. exact Hno.
  - intros w _. rewrite drain_without_display by exact Hd. reflexivity.
Qed.

(** X10: [render] returns as soon as the display stops idling: when from every
    world one of the next [n] calls of [idle] answers no, [n] calls per
    camera are enough for [render] to return, with all the cameras done. *)
Theorem render_returns_when_idling_stops inst (n fuel : nat) (w : World) :
  stops_idling rt n ->
  (n <= fuel)%nat ->
  value (render rt fuel inst w) = true.
Proof.
  intros Hstops Hfuel. unfold render. revert w.
  induction (cameras (pipeline inst)) as [ | camera rest IH ]; intros w;
    [ reflexivity | ].
  rewrite render_cameras_step. cbv zeta.
  rewrite drain_ends.
  - cbn [value]. apply IH.
  - destruct (Hstops (world (_render_one_camera rt inst camera
                               (after rt (preparation inst camera) w))))
      as (k & Hk & Hno).
    exists k. split; [ lia | exact Hno ].
Qed.

(** X11: with a display whose [idle] answers yes for ever, [render] never gets
    past the first camera: its dispatches are sent, and then the loop of
    line 48 goes on without end, so that nothing is downloaded or saved. *)
Theorem render_waits_for_display inst (camera : Camera F) (rest : list (Camera F))
    (fuel : nat) (w : World) :
  is_Some (_display inst) ->
  (forall k w', idle_answer rt k w' = true) ->
  cameras (pipeline inst) = camera :: rest ->
  value (render rt fuel inst w) = false
  /\ turns (log (render rt fuel inst w)) = rendering camera.
Proof.
  intros [d Hd] Hidle Hcams. unfold render. rewrite Hcams.
  rewrite render_cameras_step. cbv zeta.
  set (r1 := _render_one_camera rt inst camera _).
  rewrite (drain_runs_out rt inst d fuel Hd (world r1)) by (intros k; apply Hidle).
  cbn [value log]. split; [ reflexivity | ].
  rewrite !turns_app, turns_preparation.
  pose proof (turns_render_one_camera rt inst camera
                (after rt (preparation inst camera) w)) as H1.
  fold r1 in H1. rewrite H1. cbn [app].
  replace (turns (repeat (Asked DisplayIdle true) fuel)) with (@nil (Turn F));
    [ apply app_nil_r | ].
  induction fuel as [ | fuel' IH ]; [ reflexivity | exact IH ].
Qed.

End Display.

(** ** These properties at work on scripted runs *)

Lemma scripted_idle_world (s : Script) (k w : nat) :
  idle_world (scripted s) k w = (k + w)%nat.
Proof.
  revert w. induction k as [ | k IH ]; intros w; [ reflexivity | ].
  rewrite idle_world_succ, IH. cbn. lia.
Qed.

Lemma idle_twice_stops : stops_idling (scripted idle_twice) 3.
Proof.
  intros w. exists 2%nat. split; [ lia | ].
  unfold idle_answer. rewrite scripted_idle_world. reflexivity.
Qed.

Lemma commits_at_constant_cadence_witness :
  ProgressiveIntegrator.committed (ProgressiveIntegrator.locals (paced_iteration 1)) = true
  <-> (Z.of_nat 1 + 1) mod 2 = 0.
Proof.
  apply (commits_at_constant_cadence (scripted quiet)
           (description [("display", PBool true); ("display_interval", PUInt 2)])
           scene_4x4 0%nat camera_4x4 0%nat 2).
  - vm_compute. repeat constructor.
  - vm_compute. reflexivity.
Defined.

Lemma render_without_display_witness :
  let r := ProgressiveIntegrator.render (scripted quiet) 0
             (session quiet [("display_interval", PUInt 5)] scene_4x4) 0%nat in
  value r = true
  /\ display_events (log r) = []
  /\ immediate_reports (log r) = [].
Proof.
  destruct (render_without_display (scripted quiet)
              (description [("display_interval", PUInt 5)]) scene_4x4 0%nat
              eq_refl 0%nat 0%nat) as (H1 & H2 & H3 & _).
  split; [ exact H1 | split; [ exact H2 | exact H3 ] ].
Defined.

Lemma render_returns_when_idling_stops_witness :
  value (ProgressiveIntegrator.render (scripted idle_twice) 3
           (display_session idle_twice) 0%nat) = true.
Proof.
  apply (render_returns_when_idling_stops (scripted idle_twice)
           (display_session idle_twice) 3 3 0%nat).
  - exact idle_twice_stops.
  - lia.
Defined.

Lemma render_waits_for_display_witness :
  value (ProgressiveIntegrator.render (scripted always_idle) 5
           (display_session always_idle) 0%nat) = false
  /\ turns (log (ProgressiveIntegrator.render (scripted always_idle) 5
                   (display_session always_idle) 0%nat))
     = rendering camera_4x4.
Proof.
  apply (render_waits_for_display (scripted always_idle)
           (display_session always_idle) camera_4x4 [] 5 0%nat).
  - eexists. reflexivity.
  - intros k w'. reflexivity.
  - reflexivity.
Defined.
